(** * OctoCanvas utilities: rarity tiers, username cleaning, contribution
      totals, language ranking and repository statistics.

    The functions are the ones the repository's unit tests of its utility
    functions and of its configuration constants define and exercise.

    A TypeScript [number] is an IEEE-754 binary64 value.  It is embedded as a
    [spec_float] with the operations of the Standard Library's executable
    specification of binary64 ([prec = 53], [emax = 1024], round to nearest,
    ties to even), so that the weight [0.1] and fractional inputs behave as
    they do at run time.  Counters that the code only adds up or compares
    (stars, forks, contribution counts, language counts) are natural numbers
    and are embedded as [Z]; on counters below [2 ^ 53] the binary64
    computation is shown to agree with the integer one. *)

From Stdlib Require Import ZArith List String Ascii Bool Lia Permutation Sorted.
From Stdlib Require Import Floats.SpecFloat.
Import ListNotations.

(* ================================================================== *)
(** * Definitions *)
(* ================================================================== *)

(** ** JavaScript numbers *)

Module JsNumber.

Definition number : Type := spec_float.

Definition prec : Z := 53.
Definition emax : Z := 1024.

(** The values a JavaScript number can take: NaN, the two zeros, the two
    infinities and the finite binary64 values in canonical form. *)
Definition is_number (x : number) : bool := valid_binary prec emax x.

Definition mul (x y : number) : number := SFmul prec emax x y.
Definition add (x y : number) : number := SFadd prec emax x y.
Definition sub (x y : number) : number := SFsub prec emax x y.
Definition div (x y : number) : number := SFdiv prec emax x y.

(** [x >= y], [x <= y] and [x < y] of the language; all are [false] as soon
    as one side is NaN. *)
Definition geb (x y : number) : bool := SFleb y x.
Definition leb (x y : number) : bool := SFleb x y.
Definition ltb (x y : number) : bool := SFltb x y.

(** An integer literal. *)
Definition int (z : Z) : number := binary_normalize prec emax z 0 false.

(** The literal [0.1]: the binary64 value [0x1.999999999999ap-4]. *)
Definition lit_0_1 : number := S754_finite false 7205759403792794 (-56).

(** The literal [999.5] (exactly representable: [1999 / 2]). *)
Definition lit_999_5 : number := div (int 1999) (int 2).

(** The literal [99.999]: the binary64 value nearest to [99999 / 1000]. *)
Definition lit_99_999 : number := div (int 99999) (int 1000).

(** The largest number below [1000], written [999.9999999999999]. *)
Definition lit_below_1000 : number :=
  S754_finite false 8796093022207999 (-43).

Definition NaN : number := S754_nan.
Definition Infinity : number := S754_infinity false.

End JsNumber.

(** ** Rounding of binary64 arithmetic, described arithmetically *)

Module Binary64.
Import JsNumber.
Local Open Scope Z_scope.

(** Number of binary digits of a mantissa. *)
Definition digits (m : positive) : Z := Zpos (digits2_pos m).

(** Exponent of the binary64 values of a given magnitude: 53 bits of
    precision, and never below the exponent [-1074] of the subnormals. *)
Definition fexp64 (e : Z) : Z := Z.max (e - 53) (-1074).

(** [m / 2 ^ n] rounded to the nearest integer, ties to even. *)
Definition rne (m n : Z) : Z :=
  let q := m / 2 ^ n in
  let rem := m mod 2 ^ n in
  if 2 * rem <? 2 ^ n then q
  else if 2 * rem =? 2 ^ n then (if Z.even q then q else q + 1)
  else q + 1.

(** The number of mantissa [M] and exponent [t]: a zero when the mantissa
    vanishes, [+Infinity] when the exponent overflows. *)
Definition pack (M t : Z) : number :=
  match M with
  | Z0 => S754_zero false
  | Zpos p => if t <=? 971 then S754_finite false p t else S754_infinity false
  | Zneg _ => S754_nan
  end.

(** The binary64 value nearest to [m * 2 ^ e]: the mantissa is rounded at
    the exponent of its magnitude, and a mantissa that rounds up to [2 ^ 53]
    moves to the next exponent. *)
Definition roundPos (m : positive) (e : Z) : number :=
  let t := fexp64 (digits m + e) in
  let M := rne (Zpos m) (t - e) in
  if M <? 2 ^ 53 then pack M t else pack (2 ^ 52) (t + 1).

(** The value [m * 2 ^ e] in units of [2 ^ -2148], an integer for every
    mantissa and exponent that the sum or product of two numbers yields. *)
Definition scaled (m : positive) (e : Z) : Z := Zpos m * 2 ^ (e + 2148).

(** A number that is not NaN and not below zero. *)
Definition nonneg (x : number) : bool :=
  match x with
  | S754_zero _ => true
  | S754_infinity s => negb s
  | S754_nan => false
  | S754_finite s m e => negb s && bounded prec emax m e
  end.

(** A finite number above zero. *)
Definition positive_finite (x : number) : bool :=
  match x with
  | S754_finite s m e => negb s && bounded prec emax m e
  | _ => false
  end.

End Binary64.

Declare Scope js_scope.
Delimit Scope js_scope with js.
Notation "x * y" := (JsNumber.mul x y) : js_scope.
Notation "x + y" := (JsNumber.add x y) : js_scope.
Notation "x >= y" := (JsNumber.geb x y) : js_scope.
Notation "x <= y" := (JsNumber.leb x y) : js_scope.
Notation "x < y" := (JsNumber.ltb x y) : js_scope.
Notation "# z" := (JsNumber.int z) (at level 1, format "# z") : js_scope.

(** ** Rarity calculation *)

Module Rarity.
Import JsNumber.
Local Open Scope string_scope.

(** A metric of the intended domain: a number that is at least zero. *)
Definition metric (x : number) : bool := is_number x && (x >= #0)%js.

(** The [const powerLevel = ...] binding of [calculateRarity]. *)
Definition powerLevel (followers repos contributions stars forks : number)
  : number :=
  (followers * #2 +
   repos * #1 +
   contributions * lit_0_1 +
   stars * #3 +
   forks * #2)%js.

(** The chain of [if (powerLevel >= ...) return ...] statements. *)
Definition rarityOf (powerLevel : number) : string :=
  if (powerLevel >= #5000)%js then "mythical"
  else if (powerLevel >= #2000)%js then "legendary"
  else if (powerLevel >= #800)%js then "epic"
  else if (powerLevel >= #300)%js then "rare"
  else if (powerLevel >= #100)%js then "uncommon"
  else "common".

Definition calculateRarity
  (followers repos contributions stars forks : number) : string :=
  let powerLevel := powerLevel followers repos contributions stars forks in
  rarityOf powerLevel.

(** One entry of the [RARITY_LEVELS] table. *)
Record RarityLevel := {
  name : string;
  color : string;
  gradient : string
}.

(** The [RARITY_LEVELS] object, as its entries in property order. *)
Definition RARITY_LEVELS : list (string * RarityLevel) :=
  [ ("common",
     {| name := "Common"; color := "#909692";
        gradient := "from-gray-500 to-gray-600" |});
    ("uncommon",
     {| name := "Uncommon"; color := "#8CF2A6";
        gradient := "from-green-400 to-green-500" |});
    ("rare",
     {| name := "Rare"; color := "#58A6FF";
        gradient := "from-blue-400 to-blue-500" |});
    ("epic",
     {| name := "Epic"; color := "#DCFF96";
        gradient := "from-yellow-400 to-lime-400" |});
    ("legendary",
     {| name := "Legendary"; color := "#BC8CFF";
        gradient := "from-purple-400 to-purple-500" |});
    ("mythical",
     {| name := "Mythical"; color := "#5FED83";
        gradient := "from-green-300 to-green-400" |}) ].

(** Property lookup [RARITY_LEVELS[key]]. *)
Fixpoint lookup (key : string) (table : list (string * RarityLevel))
  : option RarityLevel :=
  match table with
  | [] => None
  | (k, v) :: rest => if String.eqb k key then Some v else lookup key rest
  end.

(** Position of a tier in the fixed ordering
    common < uncommon < rare < epic < legendary < mythical, which is also
    the key order of [RARITY_LEVELS]; [None] for any other string. *)
Fixpoint indexOf (key : string) (keys : list string) : option nat :=
  match keys with
  | [] => None
  | k :: rest =>
      if String.eqb k key then Some O
      else option_map S (indexOf key rest)
  end.

Definition tierRank (tier : string) : option nat :=
  indexOf tier (map fst RARITY_LEVELS).

(** The six tier keys, lowest first. *)
Definition tiers : list string := map fst RARITY_LEVELS.

(** The threshold table of the specification (inclusive lower bound, tier),
    highest threshold first. *)
Definition thresholds : list (number * string) :=
  [ (#5000, "mythical"); (#2000, "legendary"); (#800, "epic");
    (#300, "rare"); (#100, "uncommon") ]%js.

(** Classification as the specification words it: the first row of the
    table whose threshold the power level reaches wins, [common] when no
    row does. *)
Fixpoint firstMatch (table : list (number * string)) (p : number) : string :=
  match table with
  | [] => "common"
  | (threshold, tier) :: rest =>
      if (p >= threshold)%js then tier else firstMatch rest p
  end.

(** [tier1 <= tier2] in the fixed ordering. *)
Definition tier_le (tier1 tier2 : string) : Prop :=
  match tierRank tier1, tierRank tier2 with
  | Some i, Some j => (i <= j)%nat
  | _, _ => False
  end.

End Rarity.

(** ** Username cleaning *)

Module Username.

(** A JavaScript string is a sequence of UTF-16 code units. *)
Definition jsstring : Type := list N.

(** The code units of an ASCII literal. *)
Fixpoint str (s : string) : jsstring :=
  match s with
  | EmptyString => []
  | String c rest => N_of_ascii c :: str rest
  end.

Definition at_sign : N := 64%N.

(** White space and line terminators, as removed by [String.prototype.trim]:
    TAB, LF, VT, FF, CR, SPACE, NBSP, the other space separators of Unicode,
    LS, PS and the byte-order mark. *)
Definition isWhiteSpace (c : N) : bool :=
  ((9 <=? c) && (c <=? 13) ||
   (c =? 32) || (c =? 160) || (c =? 5760) ||
   (8192 <=? c) && (c <=? 8202) ||
   (c =? 8232) || (c =? 8233) || (c =? 8239) || (c =? 8287) ||
   (c =? 12288) || (c =? 65279))%N.

Fixpoint trimStart (s : jsstring) : jsstring :=
  match s with
  | [] => []
  | c :: rest => if isWhiteSpace c then trimStart rest else s
  end.

Definition trimEnd (s : jsstring) : jsstring :=
  rev (trimStart (rev s)).

Definition trim (s : jsstring) : jsstring := trimEnd (trimStart s).

(** [s.replace(/^@/, "")]: the pattern is anchored at the start of the
    input, so at most the first code unit is removed. *)
Definition replace_leading_at (s : jsstring) : jsstring :=
  match s with
  | c :: rest => if (c =? at_sign)%N then rest else s
  | [] => []
  end.

Definition getCleanUsername (username : jsstring) : jsstring :=
  trim (replace_leading_at username).

(** Whether ['@'] is literally the first code unit. *)
Definition startsWithAt (s : jsstring) : bool :=
  match s with
  | c :: _ => (c =? at_sign)%N
  | [] => false
  end.

(** Whether a string begins with a code unit that is not white space. *)
Definition noLeadingSpace (s : jsstring) : bool :=
  match s with
  | c :: _ => negb (isWhiteSpace c)
  | [] => true
  end.

(** Number of ['@'] code units of a string. *)
Definition count_at (s : jsstring) : nat :=
  List.length (filter (fun c => (c =? at_sign)%N) s).

End Username.

(** ** Contribution totals *)

Module Contributions.
Local Open Scope Z_scope.

Record ContributionDay := { contributionCount : Z }.
Record Week := { contributionDays : list ContributionDay }.

(** [weeks.reduce((sum, week) => sum + week.contributionDays.reduce(
       (s, day) => s + day.contributionCount, 0), 0)] *)
Definition total (weeks : list Week) : Z :=
  fold_left
    (fun sum week =>
       sum + fold_left (fun s day => s + contributionCount day)
                       (contributionDays week) 0)
    weeks 0.

(** The same reduction on the numbers of the language, a week being the
    list of its per-day counts. *)
Definition total_number (weeks : list (list JsNumber.number))
  : JsNumber.number :=
  fold_left
    (fun sum week =>
       JsNumber.add sum
         (fold_left (fun s day => JsNumber.add s day) week (JsNumber.int 0)))
    weeks (JsNumber.int 0).

(** The weeks of the input with their counts as numbers. *)
Definition asNumbers (weeks : list Week) : list (list JsNumber.number) :=
  map (fun week =>
         map (fun day => JsNumber.int (contributionCount day))
             (contributionDays week))
      weeks.

(** Every per-day count of the input, week after week. *)
Definition allCounts (weeks : list Week) : list Z :=
  flat_map (fun week => map contributionCount (contributionDays week)) weeks.

(** A day with [n] contributions. *)
Definition day (n : Z) : ContributionDay := {| contributionCount := n |}.

Fixpoint sumZ (l : list Z) : Z :=
  match l with
  | [] => 0
  | x :: rest => x + sumZ rest
  end.

End Contributions.

(** ** Language statistics *)

Module Languages.
Local Open Scope Z_scope.

(** [Object.entries(languageCount)]: the [name, count] pairs of the object
    in property order (insertion order, for language names). *)
Definition entries : Type := list (string * Z).

(** The comparator [([, a], [, b]) => b - a]. *)
Definition compareFn (x y : string * Z) : Z := snd y - snd x.

(** [Array.prototype.sort] is a stable sort: [x] is placed before [y] when
    the comparator is negative, after it when positive, and the two keep
    their order when it is zero.  [nonpositive] tells whether a result of
    the comparator is negative or zero. *)
Section Sort.
Context {A R : Type}.
Variable nonpositive : R -> bool.
Variable cmp : A -> A -> R.

Fixpoint insert (x : A) (l : list A) : list A :=
  match l with
  | [] => [x]
  | y :: rest =>
      if nonpositive (cmp x y) then x :: l else y :: insert x rest
  end.

Fixpoint sortBy (l : list A) : list A :=
  match l with
  | [] => []
  | x :: rest => insert x (sortBy rest)
  end.

End Sort.

Definition sort (cmp : string * Z -> string * Z -> Z) (l : entries) : entries :=
  sortBy (fun v => v <=? 0) cmp l.

(** [.slice(0, 3)] *)
Definition slice_0_3 {A : Type} (l : list A) : list A := firstn 3 l.

Definition topLanguages (languageCount : entries) : list string :=
  map fst (slice_0_3 (sort compareFn languageCount)).

(** The same computation on the numbers of the language; a comparator
    result of NaN counts as zero. *)
Definition compareFn_number (x y : string * JsNumber.number)
  : JsNumber.number :=
  JsNumber.sub (snd y) (snd x).

Definition nonpositive_number (v : JsNumber.number) : bool :=
  match v with
  | S754_nan => true
  | _ => JsNumber.leb v (JsNumber.int 0)
  end.

Definition topLanguages_number (languageCount : list (string * JsNumber.number))
  : list string :=
  map fst
    (slice_0_3 (sortBy nonpositive_number compareFn_number languageCount)).

(** An entry with its count as a number. *)
Definition asNumber (x : string * Z) : string * JsNumber.number :=
  (fst x, JsNumber.int (snd x)).

(** Entries of a list that carry a given count, in list order. *)
Definition withCount (c : Z) (l : entries) : entries :=
  filter (fun x => snd x =? c) l.

(** Descending by count. *)
Definition count_ge (x y : string * Z) : Prop := snd x >= snd y.

End Languages.

(** ** Repository statistics *)

Module Stats.
Local Open Scope Z_scope.

(** A repository record of the REST API; a counter may be absent. *)
Record Repo := {
  stargazers_count : option Z;
  forks_count : option Z
}.

(** [field || 0]: the left operand when it is truthy, [0] when it is
    [undefined] (absent) or zero. *)
Definition or_zero (field : option Z) : Z :=
  match field with
  | Some v => if v =? 0 then 0 else v
  | None => 0
  end.

(** [repos.reduce((sum, repo) => sum + (repo.field || 0), 0)] *)
Definition sumField (field : Repo -> option Z) (repos : list Repo) : Z :=
  fold_left (fun sum repo => sum + or_zero (field repo)) repos 0.



(** The same reduction on the numbers of the language: zero and NaN are
    the falsy numbers. *)
Definition falsy (v : JsNumber.number) : bool :=
  match v with
  | S754_zero _ | S754_nan => true
  | _ => false
  end.

Definition or_zero_number (field : option JsNumber.number) : JsNumber.number :=
  match field with
  | Some v => if falsy v then JsNumber.int 0 else v
  | None => JsNumber.int 0
  end.

Definition sumField_number (fields : list (option JsNumber.number))
  : JsNumber.number :=
  fold_left (fun sum field => JsNumber.add sum (or_zero_number field))
            fields (JsNumber.int 0).

(** A repository with [n] stars, and one without any counter. *)
Definition starred (n : Z) : Repo :=
  {| stargazers_count := Some n; forks_count := None |}.
Definition bare : Repo :=
  {| stargazers_count := None; forks_count := None |}.

(** The values of a field that are present. *)
Definition present (field : Repo -> option Z) (repos : list Repo) : list Z :=
  flat_map (fun repo => match field repo with Some v => [v] | None => [] end)
           repos.

End Stats.

(** ** The patterns that the rarity table is checked against *)

Module Patterns.
Local Open Scope char_scope.

Definition isDigit (c : ascii) : bool :=
  let n := N_of_ascii c in ((48 <=? n) && (n <=? 57))%N.

(** [[0-9A-F]] under the [i] flag. *)
Definition isHexDigit (c : ascii) : bool :=
  let n := N_of_ascii c in
  ((48 <=? n) && (n <=? 57) || (65 <=? n) && (n <=? 70) ||
   (97 <=? n) && (n <=? 102))%N.

(** [\w]: a letter, a digit or an underscore. *)
Definition isWord (c : ascii) : bool :=
  let n := N_of_ascii c in
  ((48 <=? n) && (n <=? 57) || (65 <=? n) && (n <=? 90) ||
   (97 <=? n) && (n <=? 122) || (n =? 95))%N.

Fixpoint allChars (f : ascii -> bool) (s : string) : bool :=
  match s with
  | EmptyString => true
  | String c rest => f c && allChars f rest
  end.

(** [/^#[0-9A-F]{6}$/i] *)
Definition isHexColor (s : string) : bool :=
  match s with
  | String "#" rest => (String.length rest =? 6)%nat && allChars isHexDigit rest
  | _ => false
  end.

(** What is left of [s] after the literal [lit], when [s] starts with it. *)
Fixpoint after (lit s : string) : option string :=
  match lit, s with
  | EmptyString, _ => Some s
  | String a lit', String b s' => if Ascii.eqb a b then after lit' s' else None
  | String _ _, EmptyString => None
  end.

(** What is left of [s] after its longest run of word characters. *)
Fixpoint afterWord (s : string) : string :=
  match s with
  | String c rest => if isWord c then afterWord rest else s
  | EmptyString => s
  end.

(** [\w+-\d{3}]: one word character at least, a dash and three digits.  A
    dash is no word character, so that the run of word characters has to be
    the longest one. *)
Definition afterShade (s : string) : option string :=
  match s with
  | String c _ =>
      if isWord c then
        match afterWord s with
        | String "-" (String d1 (String d2 (String d3 rest))) =>
            if isDigit d1 && isDigit d2 && isDigit d3 then Some rest else None
        | _ => None
        end
      else None
  | EmptyString => None
  end.

(** [/^from-\w+-\d{3} to-\w+-\d{3}$/] *)
Definition isGradient (s : string) : bool :=
  match after "from-" s with
  | Some s1 =>
      match afterShade s1 with
      | Some s2 =>
          match after " to-" s2 with
          | Some s3 =>
              match afterShade s3 with
              | Some EmptyString => true
              | _ => false
              end
          | None => false
          end
      | None => false
      end
  | None => false
  end.

End Patterns.

(** ** Rarity on integer metrics *)

Module RarityIntegers.
Import JsNumber Rarity.
Local Open Scope Z_scope.

(** Number of rows of the threshold table that a power level reaches. *)
Definition reached (p : number) : nat :=
  List.length (filter (fun row => (p >= fst row)%js) thresholds).

(** The score of integer metrics, the contributions being [10 * tens]. *)
Definition scoreZ (followers repos tens stars forks : Z) : Z :=
  followers * 2 + repos * 1 + tens + stars * 3 + forks * 2.

(** The chain of threshold tests of [calculateRarity] on an integer score. *)
Definition rarityOfZ (score : Z) : string :=
  if 5000 <=? score then "mythical"
  else if 2000 <=? score then "legendary"
  else if 800 <=? score then "epic"
  else if 300 <=? score then "rare"
  else if 100 <=? score then "uncommon"
  else "common".

End RarityIntegers.

(* ================================================================== *)
(** * Properties *)
(* ================================================================== *)

(** ** Ordering of binary64 values *)

Module NumberOrder.
Import JsNumber.
Local Open Scope Z_scope.

Lemma compare_cont_Eq (m1 m2 : positive) :
  Pos.compare_cont Eq m1 m2 = (m1 ?= m2)%positive.
Proof. reflexivity. Qed.

(** Case analysis on every integer and mantissa comparison of a goal. *)
Ltac order_cases :=
  repeat match goal with
  | |- context [Pos.compare_cont Eq ?a ?b] =>
      rewrite (compare_cont_Eq a b)
  | H : context [Pos.compare_cont Eq ?a ?b] |- _ =>
      rewrite (compare_cont_Eq a b) in H
  end;
  repeat match goal with
  | H : context [(?a ?= ?b)%Z] |- _ =>
      destruct (Z.compare_spec a b); simpl in H
  | H : context [(?a ?= ?b)%positive] |- _ =>
      destruct (Pos.compare_spec a b); simpl in H
  | |- context [(?a ?= ?b)%Z] =>
      destruct (Z.compare_spec a b); simpl
  | |- context [(?a ?= ?b)%positive] =>
      destruct (Pos.compare_spec a b); simpl
  end;
  try discriminate; try reflexivity; try lia.

(** [<=] on numbers is transitive (NaN is related to nothing). *)
Lemma SFleb_trans (x y z : number) :
  SFleb x y = true -> SFleb y z = true -> SFleb x z = true.
Proof.
  unfold SFleb, SFcompare.
  destruct x as [sx|sx| |sx mx ex], y as [sy|sy| |sy my ey],
           z as [sz|sz| |sz mz ez];
    try discriminate; try reflexivity;
    repeat match goal with s : bool |- _ => destruct s end;
    try discriminate; try reflexivity;
    intros Hxy Hyz; order_cases.
Qed.

Lemma geb_mono (p1 p2 c : number) :
  (p1 <= p2)%js = true -> (p1 >= c)%js = true -> (p2 >= c)%js = true.
Proof.
  unfold leb, geb. intros H12 Hc. exact (SFleb_trans _ _ _ Hc H12).
Qed.

(** The thresholds are in ascending order. *)
Lemma thresholds_ascending :
  (#100 <= #300)%js = true /\ (#300 <= #800)%js = true /\
  (#800 <= #2000)%js = true /\ (#2000 <= #5000)%js = true.
Proof. vm_compute. repeat split. Qed.

(** Reaching a threshold means reaching every lower one. *)
Lemma geb_lower (p lo hi : number) :
  (lo <= hi)%js = true -> (p >= hi)%js = true -> (p >= lo)%js = true.
Proof.
  unfold leb, geb. intros Hlh Hp. exact (SFleb_trans _ _ _ Hlh Hp).
Qed.

End NumberOrder.

(** ** Rounding of binary64 sums and products *)

Module Rounding.
Import JsNumber Binary64 NumberOrder.
Local Open Scope Z_scope.

(** *** Digits and powers of two *)

Lemma pow2_pos (n : Z) : 0 <= n -> 0 < 2 ^ n.
Proof. intro. apply Z.pow_pos_nonneg; lia. Qed.

Lemma fexp_eq (e : Z) : fexp prec emax e = fexp64 e.
Proof. reflexivity. Qed.

Lemma fexp64_ge (e : Z) : -1074 <= fexp64 e.
Proof. unfold fexp64. lia. Qed.

Lemma digits_pos (m : positive) : 1 <= digits m.
Proof. unfold digits. lia. Qed.

(** A mantissa of [d] digits lies in [[2 ^ (d - 1), 2 ^ d)]. *)
Lemma digits_bounds (m : positive) :
  2 ^ (digits m - 1) <= Zpos m < 2 ^ digits m.
Proof.
  unfold digits.
  induction m as [m IH|m IH|]; simpl digits2_pos; [| |simpl; lia];
    rewrite Pos2Z.inj_succ;
    replace (Z.succ (Zpos (digits2_pos m)) - 1)
      with (Z.succ (Zpos (digits2_pos m) - 1)) by lia;
    rewrite !Z.pow_succ_r by lia; lia.
Qed.

Lemma digits_unique (m : positive) (d : Z) :
  2 ^ (d - 1) <= Zpos m < 2 ^ d -> digits m = d.
Proof.
  intros [Hlo Hhi].
  pose proof (digits_bounds m) as [Blo Bhi].
  pose proof (digits_pos m).
  assert (0 < d).
  { destruct (Z.ltb_spec 0 d); [assumption|exfalso].
    destruct (Z.eq_dec d 0) as [->|].
    - simpl in Hhi. lia.
    - rewrite (Z.pow_neg_r 2 d) in Hhi by lia. lia. }
  destruct (Z.lt_trichotomy (digits m) d) as [Hlt|[Heq|Hgt]];
    [exfalso|assumption|exfalso].
  - assert (2 ^ digits m <= 2 ^ (d - 1)) by (apply Z.pow_le_mono_r; lia).
    lia.
  - assert (2 ^ d <= 2 ^ (digits m - 1)) by (apply Z.pow_le_mono_r; lia).
    lia.
Qed.

Lemma Zdigits2_le_53 (M : Z) : 0 <= M < 2 ^ 53 -> Zdigits2 M <= 53.
Proof.
  intros [H0 H1]. destruct M as [|p|p]; simpl; [lia| |lia].
  pose proof (digits_bounds p) as [Hlo _]. unfold digits in Hlo.
  destruct (Z.leb_spec (Zpos (digits2_pos p)) 53); [assumption|].
  assert (2 ^ 53 <= 2 ^ (Zpos (digits2_pos p) - 1))
    by (apply Z.pow_le_mono_r; lia).
  lia.
Qed.

Lemma digits_pow52 : digits (Z.to_pos (2 ^ 52)) = 53.
Proof. reflexivity. Qed.

Lemma digits_mul_ge (a b : positive) :
  digits a + digits b - 1 <= digits (a * b).
Proof.
  pose proof (digits_bounds a) as [La _].
  pose proof (digits_bounds b) as [Lb _].
  pose proof (digits_bounds (a * b)) as [_ U].
  pose proof (digits_pos a). pose proof (digits_pos b).
  pose proof (digits_pos (a * b)).
  rewrite Pos2Z.inj_mul in U.
  destruct (Z.leb_spec (digits a + digits b - 1) (digits (a * b)));
    [assumption|exfalso].
  pose proof (pow2_pos (digits a - 1) ltac:(lia)).
  pose proof (pow2_pos (digits b - 1) ltac:(lia)).
  assert (A : 2 ^ (digits a - 1 + (digits b - 1)) <= Zpos a * Zpos b).
  { rewrite Z.pow_add_r by lia. apply Z.mul_le_mono_nonneg; lia. }
  assert (B : 2 ^ digits (a * b) <= 2 ^ (digits a - 1 + (digits b - 1)))
    by (apply Z.pow_le_mono_r; lia).
  lia.
Qed.

Lemma digits_shift (m : positive) (j : Z) :
  0 <= j -> digits (Z.to_pos (Zpos m * 2 ^ j)) = digits m + j.
Proof.
  intro Hj. pose proof (pow2_pos j Hj) as P.
  pose proof (digits_bounds m) as [L U]. pose proof (digits_pos m).
  apply digits_unique. rewrite Z2Pos.id by lia.
  replace (digits m + j - 1) with (digits m - 1 + j) by lia.
  rewrite !Z.pow_add_r by lia. nia.
Qed.

(** *** Canonical mantissas *)

Lemma bounded_spec (m : positive) (e : Z) :
  bounded prec emax m e = true <-> fexp64 (digits m + e) = e /\ e <= 971.
Proof.
  unfold bounded, canonical_mantissa. rewrite fexp_eq.
  change (Zpos (digits2_pos m)) with (digits m).
  change (emax - prec) with 971.
  rewrite andb_true_iff, Z.eqb_eq, Z.leb_le. tauto.
Qed.

(** A finite number has at most 53 digits, and exactly 53 unless it is
    subnormal. *)
Lemma bounded_digits (m : positive) (e : Z) :
  bounded prec emax m e = true ->
  -1074 <= e <= 971 /\ 1 <= digits m <= 53 /\
  (-1074 < e -> digits m = 53).
Proof.
  rewrite bounded_spec. unfold fexp64. pose proof (digits_pos m). lia.
Qed.

Lemma nonneg_iff (x : number) :
  nonneg x = valid_binary prec emax x && SFleb (S754_zero false) x.
Proof.
  destruct x as [s|s| |s m e]; simpl; try reflexivity.
  - now destruct s.
  - destruct s; simpl; [now rewrite andb_false_r|now rewrite andb_true_r].
Qed.

(** *** Rounding to nearest, ties to even, on integers *)

Lemma rne_0 (m : Z) : rne m 0 = m.
Proof.
  unfold rne. change (2 ^ 0) with 1.
  rewrite Z.div_1_r, Z.mod_1_r. reflexivity.
Qed.

Lemma rne_bounds (m n : Z) : m / 2 ^ n <= rne m n <= m / 2 ^ n + 1.
Proof.
  unfold rne.
  destruct (2 * (m mod 2 ^ n) <? 2 ^ n); [lia|].
  destruct (2 * (m mod 2 ^ n) =? 2 ^ n); [|lia].
  destruct (Z.even (m / 2 ^ n)); lia.
Qed.

Lemma rne_nonneg (m n : Z) : 0 <= m -> 0 <= n -> 0 <= rne m n.
Proof.
  intros. pose proof (rne_bounds m n).
  pose proof (pow2_pos n ltac:(lia)).
  assert (0 <= m / 2 ^ n) by (apply Z.div_pos; lia). lia.
Qed.

(** Case analysis on the comparisons that [rne] makes. *)
Ltac rne_cases :=
  repeat match goal with
  | |- context [?a <? ?b] => destruct (Z.ltb_spec a b)
  | |- context [?a =? ?b] => destruct (Z.eqb_spec a b)
  end.

(** Scaling the mantissa and the shift together changes nothing. *)
Lemma rne_scale (m n j : Z) :
  0 <= n -> 0 <= j -> rne (m * 2 ^ j) (n + j) = rne m n.
Proof.
  intros Hn Hj. unfold rne.
  pose proof (pow2_pos n Hn). pose proof (pow2_pos j Hj).
  rewrite Z.pow_add_r by lia.
  rewrite Z.div_mul_cancel_r by lia.
  rewrite Z.mul_mod_distr_r by lia.
  set (q := m / 2 ^ n). set (r := m mod 2 ^ n).
  rne_cases; try reflexivity; nia.
Qed.

Lemma rne_mono (m1 m2 n : Z) :
  0 <= n -> m1 <= m2 -> rne m1 n <= rne m2 n.
Proof.
  intros Hn Hle.
  pose proof (pow2_pos n Hn) as P.
  pose proof (Z.div_le_mono m1 m2 (2 ^ n) P Hle) as Hq.
  pose proof (rne_bounds m1 n) as B1.
  pose proof (rne_bounds m2 n) as B2.
  destruct (Z.eq_dec (m1 / 2 ^ n) (m2 / 2 ^ n)) as [E|E]; [|lia].
  assert (Hr : m1 mod 2 ^ n <= m2 mod 2 ^ n).
  { rewrite !Z.mod_eq by lia. rewrite E. lia. }
  unfold rne. rewrite <- E.
  rne_cases; destruct (Z.even (m1 / 2 ^ n)); lia.
Qed.

(** *** The shifts of the library, written with divisions *)

Lemma shr_1_nonneg (m : Z) (r s : bool) :
  0 <= m ->
  shr_1 {| shr_m := m; shr_r := r; shr_s := s |}
  = {| shr_m := m / 2; shr_r := Z.odd m; shr_s := r || s |}.
Proof.
  intro Hm. unfold shr_1.
  destruct m as [|p|p]; [reflexivity| |lia].
  destruct p as [p|p|]; simpl Z.odd.
  - replace (Z.pos p~1 / 2) with (Z.pos p); [reflexivity|].
    rewrite Pos2Z.inj_xI. apply (Z.div_unique_pos _ _ _ 1); lia.
  - replace (Z.pos p~0 / 2) with (Z.pos p); [reflexivity|].
    rewrite Pos2Z.inj_xO. apply (Z.div_unique_pos _ _ _ 0); lia.
  - reflexivity.
Qed.

Lemma iter_pos_nat {A : Type} (f : A -> A) (p : positive) (x : A) :
  iter_pos f p x = Nat.iter (Pos.to_nat p) f x.
Proof.
  revert x. induction p as [p IH|p IH|]; intro x; simpl iter_pos.
  - rewrite !IH, Pos2Nat.inj_xI.
    replace (S (2 * Pos.to_nat p))%nat
      with (Pos.to_nat p + (Pos.to_nat p + 1))%nat by lia.
    rewrite !Nat.iter_add. reflexivity.
  - rewrite !IH, Pos2Nat.inj_xO.
    replace (2 * Pos.to_nat p)%nat
      with (Pos.to_nat p + Pos.to_nat p)%nat by lia.
    rewrite Nat.iter_add. reflexivity.
  - reflexivity.
Qed.

(** After [n + 1] shifts of an exact mantissa the record holds the quotient
    by [2 ^ (n + 1)], the last bit shifted out, and whether any bit shifted
    out before it was set. *)
Lemma shr_iter (m : Z) (n : nat) :
  0 <= m ->
  Nat.iter (S n) shr_1 {| shr_m := m; shr_r := false; shr_s := false |}
  = {| shr_m := m / 2 ^ Z.of_nat (S n);
       shr_r := Z.odd (m / 2 ^ Z.of_nat n);
       shr_s := negb (m mod 2 ^ Z.of_nat n =? 0) |}.
Proof.
  intro Hm. induction n as [|n IH].
  - change (Nat.iter 1 shr_1 ?x) with (shr_1 x).
    rewrite shr_1_nonneg by assumption.
    change (2 ^ Z.of_nat 1) with 2. change (2 ^ Z.of_nat 0) with 1.
    rewrite Z.div_1_r, Z.mod_1_r. reflexivity.
  - change (Nat.iter (S (S n)) shr_1 ?x)
      with (shr_1 (Nat.iter (S n) shr_1 x)).
    rewrite IH.
    pose proof (pow2_pos (Z.of_nat n) ltac:(lia)) as P.
    pose proof (pow2_pos (Z.of_nat (S n)) ltac:(lia)) as P'.
    rewrite shr_1_nonneg by (apply Z.div_pos; lia).
    f_equal.
    + rewrite Z.div_div by lia.
      f_equal. rewrite (Nat2Z.inj_succ (S n)), Z.pow_succ_r by lia. lia.
    + rewrite (Nat2Z.inj_succ n), Z.pow_succ_r by lia.
      rewrite (Z.mul_comm 2), Z.rem_mul_r by lia.
      pose proof (Z.mod_pos_bound m (2 ^ Z.of_nat n) P).
      rewrite (Zmod_odd (m / 2 ^ Z.of_nat n)).
      destruct (Z.odd (m / 2 ^ Z.of_nat n));
        destruct (Z.eqb_spec (m mod 2 ^ Z.of_nat n) 0) as [E|E]; simpl;
        match goal with
        | |- _ = negb (?a =? 0) => destruct (Z.eqb_spec a 0)
        end; try reflexivity; lia.
Qed.

(** Shifting an exact mantissa and rounding on the bits shifted out is
    [rne]. *)
Lemma round_shr (m : Z) (p : positive) :
  0 <= m ->
  round_nearest_even
    (shr_m (iter_pos shr_1 p
              {| shr_m := m; shr_r := false; shr_s := false |}))
    (loc_of_shr_record
       (iter_pos shr_1 p
          {| shr_m := m; shr_r := false; shr_s := false |}))
  = rne m (Zpos p).
Proof.
  intro Hm. rewrite iter_pos_nat.
  destruct (Pos2Nat.is_succ p) as [n Hn]. rewrite Hn.
  rewrite shr_iter by assumption.
  assert (Hp : Zpos p = Z.of_nat n + 1) by lia.
  rewrite Nat2Z.inj_succ, <- Z.add_1_r, <- Hp.
  unfold rne. cbn [shr_m shr_r shr_s].
  set (q := m / 2 ^ Zpos p).
  set (k := Z.of_nat n) in *.
  pose proof (pow2_pos k ltac:(lia)) as P.
  assert (E : m mod 2 ^ Zpos p
              = m mod 2 ^ k + 2 ^ k * ((m / 2 ^ k) mod 2)).
  { rewrite Hp, Z.pow_add_r by lia. change (2 ^ 1) with 2.
    apply Z.rem_mul_r; lia. }
  assert (E2 : 2 ^ Zpos p = 2 * 2 ^ k).
  { rewrite Hp, Z.pow_add_r by lia. change (2 ^ 1) with 2. lia. }
  rewrite E, E2.
  pose proof (Z.mod_pos_bound m (2 ^ k) P) as B.
  rewrite (Zmod_odd (m / 2 ^ k)).
  unfold loc_of_shr_record, round_nearest_even.
  destruct (Z.odd (m / 2 ^ k));
    destruct (Z.eqb_spec (m mod 2 ^ k) 0) as [E0|E0]; cbn [negb];
    rne_cases; try reflexivity; try lia.
Qed.

Lemma iter_xO (m d : positive) :
  Zpos (Pos.iter xO m d) = Zpos m * 2 ^ Zpos d.
Proof.
  induction d as [|d IH] using Pos.peano_ind.
  - simpl. lia.
  - rewrite Pos.iter_succ, Pos2Z.inj_xO, IH, Pos2Z.inj_succ.
    rewrite Z.pow_succ_r by lia. lia.
Qed.

(** Left alignment keeps the value and the magnitude. *)
Lemma shl_align_spec (m : positive) (e e' : Z) :
  -2148 <= e -> -2148 <= e' ->
  let '(m', e'') := shl_align m e e' in
  e'' = Z.min e e' /\ scaled m' e'' = scaled m e /\
  digits m' + e'' = digits m + e.
Proof.
  intros He He'. unfold shl_align.
  destruct (e' - e) as [|d|d] eqn:E.
  - repeat split. lia.
  - repeat split. lia.
  - assert (Hd : Zpos d = e - e') by lia.
    split; [lia|]. split.
    + unfold scaled.
      rewrite iter_xO, Hd, <- Z.mul_assoc, <- Z.pow_add_r by lia.
      do 2 f_equal. lia.
    + pose proof (digits_shift m (Zpos d) ltac:(lia)) as D.
      rewrite <- iter_xO, Pos2Z.id in D. lia.
Qed.

(** *** What the rounding of the library computes *)

Lemma rne_lt_pow (m : positive) (e t : Z) :
  e <= t -> digits m + e - 53 <= t ->
  Zpos m / 2 ^ (t - e) < 2 ^ 53.
Proof.
  intros Het Hd.
  pose proof (digits_bounds m) as [_ Hhi].
  pose proof (digits_pos m).
  pose proof (pow2_pos (t - e) ltac:(lia)) as P.
  apply Z.div_lt_upper_bound; [assumption|].
  rewrite <- Z.pow_add_r by lia.
  assert (2 ^ digits m <= 2 ^ (t - e + 53))
    by (apply Z.pow_le_mono_r; lia).
  lia.
Qed.

(** The rounded mantissa has at most 53 digits, or is [2 ^ 53]. *)
Lemma rne_le_pow (m : positive) (e : Z) :
  let t := fexp64 (digits m + e) in
  e <= t -> 0 <= rne (Zpos m) (t - e) <= 2 ^ 53.
Proof.
  intros t Het.
  assert (Hd : digits m + e - 53 <= t) by (unfold t, fexp64; lia).
  pose proof (rne_bounds (Zpos m) (t - e)).
  pose proof (rne_lt_pow m e t Het Hd).
  pose proof (rne_nonneg (Zpos m) (t - e) ltac:(lia) ltac:(lia)).
  lia.
Qed.

(** Above the subnormal range the rounded mantissa has 53 digits at least. *)
Lemma rne_normal (m : positive) (e : Z) :
  let t := fexp64 (digits m + e) in
  e <= t -> -1074 < t -> 2 ^ 52 <= rne (Zpos m) (t - e).
Proof.
  intros t Het Hn.
  assert (Ht : t = digits m + e - 53) by (unfold t, fexp64 in *; lia).
  pose proof (digits_bounds m) as [Hlo _].
  pose proof (rne_bounds (Zpos m) (t - e)) as [B _].
  pose proof (pow2_pos (t - e) ltac:(lia)) as P.
  assert (2 ^ 52 <= Zpos m / 2 ^ (t - e)); [|lia].
  apply Z.div_le_lower_bound; [assumption|].
  rewrite <- Z.pow_add_r by lia.
  replace (t - e + 52) with (digits m - 1) by lia. assumption.
Qed.

(** On a mantissa that is not below the exponent of its magnitude, the
    rounding of the library is [roundPos]. *)
Lemma binary_round_aux_pos (m : positive) (e : Z) :
  e <= fexp64 (digits m + e) ->
  binary_round_aux prec emax false (Zpos m) e loc_Exact = roundPos m e.
Proof.
  intro Hpre.
  pose proof (rne_le_pow m e Hpre) as HM.
  unfold binary_round_aux, roundPos.
  set (t := fexp64 (digits m + e)) in *.
  assert (Ht : -1074 <= t) by apply fexp64_ge.
  assert (S1 : exists mrs,
             shr_fexp prec emax (Zpos m) e loc_Exact = (mrs, t) /\
             round_nearest_even (shr_m mrs) (loc_of_shr_record mrs)
             = rne (Zpos m) (t - e)).
  { unfold shr_fexp, shr. rewrite fexp_eq.
    change (Zdigits2 (Zpos m) + e) with (digits m + e). fold t.
    destruct (t - e) as [|p|p] eqn:En; [| |lia].
    - eexists. split; [f_equal; lia|]. simpl. now rewrite rne_0.
    - eexists. split; [f_equal; lia|].
      simpl shr_record_of_loc. apply round_shr. lia. }
  destruct S1 as (mrs & -> & ->).
  set (M := rne (Zpos m) (t - e)) in *.
  unfold shr_fexp, shr. rewrite fexp_eq.
  destruct (Z.ltb_spec M (2 ^ 53)) as [Hlt|Hge].
  - pose proof (Zdigits2_le_53 M ltac:(lia)) as HdM.
    assert (Hn : fexp64 (Zdigits2 M + t) - t <= 0) by (unfold fexp64; lia).
    destruct (fexp64 (Zdigits2 M + t) - t) as [|p|p] eqn:En; [| lia |];
      simpl shr_record_of_loc; simpl shr_m; unfold pack;
      destruct M; reflexivity.
  - assert (M = 2 ^ 53) as -> by lia.
    change (Zdigits2 (2 ^ 53)) with 54.
    assert (fexp64 (54 + t) - t = 1) as -> by (unfold fexp64; lia).
    reflexivity.
Qed.

(** The result of a rounding is a number, and not below zero. *)
Lemma roundPos_nonneg (m : positive) (e : Z) :
  e <= fexp64 (digits m + e) -> nonneg (roundPos m e) = true.
Proof.
  intro Hpre.
  pose proof (rne_le_pow m e Hpre) as HM.
  pose proof (fexp64_ge (digits m + e)) as Ht.
  assert (HN : -1074 < fexp64 (digits m + e) ->
               2 ^ 52 <= rne (Zpos m) (fexp64 (digits m + e) - e))
    by (apply rne_normal; assumption).
  unfold roundPos.
  set (t := fexp64 (digits m + e)) in *.
  set (M := rne (Zpos m) (t - e)) in *.
  destruct (Z.ltb_spec M (2 ^ 53)) as [Hlt|Hge].
  - unfold pack. destruct M as [|p|p] eqn:EM; [reflexivity| |lia].
    destruct (Z.leb_spec t 971); [|reflexivity].
    simpl. apply bounded_spec. split; [|assumption].
    destruct (Z.eq_dec t (-1074)) as [E|E].
    + pose proof (Zdigits2_le_53 (Zpos p) ltac:(lia)) as D. simpl in D.
      unfold fexp64, digits. lia.
    + rewrite (digits_unique p 53) by (simpl; lia).
      unfold fexp64. lia.
  - change (pack (2 ^ 52) (t + 1)) with
      (if t + 1 <=? 971
       then S754_finite false (Z.to_pos (2 ^ 52)) (t + 1)
       else S754_infinity false).
    destruct (Z.leb_spec (t + 1) 971); [|reflexivity].
    cbn [nonneg negb andb]. apply bounded_spec.
    rewrite digits_pow52. unfold fexp64. lia.
Qed.

(** A finite number is its own rounding. *)
Lemma roundPos_id (m : positive) (e : Z) :
  bounded prec emax m e = true -> roundPos m e = S754_finite false m e.
Proof.
  intro Hb. pose proof (bounded_digits m e Hb) as (He & Hd & _).
  apply bounded_spec in Hb. destruct Hb as [Hc Hle].
  unfold roundPos. rewrite Hc, Z.sub_diag, rne_0.
  pose proof (digits_bounds m) as [_ Hhi].
  assert (2 ^ digits m <= 2 ^ 53) by (apply Z.pow_le_mono_r; lia).
  destruct (Z.ltb_spec (Zpos m) (2 ^ 53)); [|lia].
  unfold pack. destruct (Z.leb_spec e 971); [reflexivity|lia].
Qed.

(** *** Rounding is monotonic *)

Lemma scaled_pos (m : positive) (e : Z) : -2148 <= e -> 0 < scaled m e.
Proof.
  intro. unfold scaled.
  pose proof (pow2_pos (e + 2148) ltac:(lia)). nia.
Qed.

(** The larger value has the larger magnitude. *)
Lemma magnitude_mono (m1 m2 : positive) (e1 e2 : Z) :
  -2148 <= e1 -> -2148 <= e2 ->
  scaled m1 e1 <= scaled m2 e2 ->
  digits m1 + e1 <= digits m2 + e2.
Proof.
  unfold scaled. intros H1 H2 Hle.
  pose proof (digits_bounds m1) as [L1 _].
  pose proof (digits_bounds m2) as [_ U2].
  pose proof (digits_pos m1). pose proof (digits_pos m2).
  destruct (Z.leb_spec (digits m1 + e1) (digits m2 + e2));
    [assumption|exfalso].
  pose proof (pow2_pos (e1 + 2148) ltac:(lia)).
  pose proof (pow2_pos (e2 + 2148) ltac:(lia)).
  assert (A : 2 ^ (digits m1 - 1 + (e1 + 2148))
              <= Zpos m1 * 2 ^ (e1 + 2148)).
  { rewrite (Z.pow_add_r 2 (digits m1 - 1) (e1 + 2148)) by lia.
    apply Z.mul_le_mono_nonneg_r; lia. }
  assert (B : Zpos m2 * 2 ^ (e2 + 2148)
              < 2 ^ (digits m2 + (e2 + 2148))).
  { rewrite (Z.pow_add_r 2 (digits m2) (e2 + 2148)) by lia.
    apply Z.mul_lt_mono_pos_r; lia. }
  assert (C : 2 ^ (digits m2 + (e2 + 2148))
              <= 2 ^ (digits m1 - 1 + (e1 + 2148)))
    by (apply Z.pow_le_mono_r; lia).
  lia.
Qed.

(** At a common exponent [t], the larger value has the larger rounded
    mantissa. *)
Lemma rne_mono_scaled (m1 m2 : positive) (e1 e2 t : Z) :
  -2148 <= e1 -> -2148 <= e2 -> e1 <= t -> e2 <= t ->
  scaled m1 e1 <= scaled m2 e2 ->
  rne (Zpos m1) (t - e1) <= rne (Zpos m2) (t - e2).
Proof.
  unfold scaled. intros H1 H2 T1 T2 Hle.
  rewrite <- (rne_scale (Zpos m1) (t - e1) (t - e2)) by lia.
  rewrite <- (rne_scale (Zpos m2) (t - e2) (t - e1)) by lia.
  replace (t - e2 + (t - e1)) with (t - e1 + (t - e2)) by lia.
  apply rne_mono; [lia|].
  pose proof (pow2_pos (t - e1) ltac:(lia)) as Q1.
  pose proof (pow2_pos (t - e2) ltac:(lia)) as Q2.
  pose proof (pow2_pos (t + 2148) ltac:(lia)) as PT.
  assert (A1 : 2 ^ (e1 + 2148) * 2 ^ (t - e1) = 2 ^ (t + 2148)).
  { rewrite <- Z.pow_add_r by lia. f_equal. lia. }
  assert (A2 : 2 ^ (e2 + 2148) * 2 ^ (t - e2) = 2 ^ (t + 2148)).
  { rewrite <- Z.pow_add_r by lia. f_equal. lia. }
  apply (Z.mul_le_mono_pos_r _ _ (2 ^ (t + 2148))); [assumption|].
  rewrite <- A1 at 1. rewrite <- A2.
  assert (Zpos m1 * 2 ^ (e1 + 2148) * (2 ^ (t - e1) * 2 ^ (t - e2))
          <= Zpos m2 * 2 ^ (e2 + 2148) * (2 ^ (t - e1) * 2 ^ (t - e2))).
  { apply Z.mul_le_mono_nonneg_r; [lia|assumption]. }
  lia.
Qed.

(** Numbers compare as their exponents, then as their mantissas. *)
Lemma pack_mono (M1 M2 t1 t2 : Z) :
  0 <= M1 ->
  (t1 < t2 /\ 0 < M2) \/ (t1 = t2 /\ M1 <= M2) ->
  SFleb (pack M1 t1) (pack M2 t2) = true.
Proof.
  intros H1 H.
  unfold pack, SFleb, SFcompare.
  destruct M1 as [|p1|p1]; [| |lia]; destruct M2 as [|p2|p2]; try lia;
    repeat match goal with
    | |- context [?a <=? ?b] => destruct (Z.leb_spec a b)
    end; try reflexivity; try lia.
  rewrite Pos.compare_cont_spec. simpl.
  destruct (Z.compare_spec t1 t2); try reflexivity; try lia.
  destruct (Pos.compare_spec p1 p2); try reflexivity; lia.
Qed.

Lemma roundPos_mono (m1 m2 : positive) (e1 e2 : Z) :
  -2148 <= e1 -> -2148 <= e2 ->
  e1 <= fexp64 (digits m1 + e1) -> e2 <= fexp64 (digits m2 + e2) ->
  scaled m1 e1 <= scaled m2 e2 ->
  SFleb (roundPos m1 e1) (roundPos m2 e2) = true.
Proof.
  intros H1 H2 P1 P2 Hle.
  pose proof (magnitude_mono m1 m2 e1 e2 H1 H2 Hle) as Hmag.
  unfold roundPos.
  set (t1 := fexp64 (digits m1 + e1)) in *.
  set (t2 := fexp64 (digits m2 + e2)) in *.
  assert (Ht : t1 <= t2) by (unfold t1, t2, fexp64; lia).
  pose proof (rne_nonneg (Zpos m1) (t1 - e1) ltac:(lia) ltac:(lia)) as N1.
  pose proof (rne_nonneg (Zpos m2) (t2 - e2) ltac:(lia) ltac:(lia)) as N2.
  assert (K1 : -1074 <= t1) by apply fexp64_ge.
  destruct (Z.eq_dec t1 t2) as [E|E].
  - pose proof (rne_mono_scaled m1 m2 e1 e2 t2 H1 H2
                  ltac:(lia) ltac:(lia) Hle) as HM.
    rewrite <- E in HM at 1. rewrite <- E.
    rewrite <- E in HM at 1.
    destruct (Z.ltb_spec (rne (Zpos m1) (t1 - e1)) (2 ^ 53));
      destruct (Z.ltb_spec (rne (Zpos m2) (t1 - e2)) (2 ^ 53));
      apply pack_mono; lia.
  - pose proof (rne_normal m2 e2 P2 ltac:(fold t2; lia)) as HN.
    fold t2 in HN.
    destruct (Z.ltb_spec (rne (Zpos m1) (t1 - e1)) (2 ^ 53));
      destruct (Z.ltb_spec (rne (Zpos m2) (t2 - e2)) (2 ^ 53));
      apply pack_mono; lia.
Qed.

(** Rounding depends on the value only, not on how it is written. *)
Lemma roundPos_ext (m1 m2 : positive) (e1 e2 : Z) :
  -2148 <= e1 -> -2148 <= e2 ->
  e1 <= fexp64 (digits m1 + e1) -> e2 <= fexp64 (digits m2 + e2) ->
  scaled m1 e1 = scaled m2 e2 ->
  roundPos m1 e1 = roundPos m2 e2.
Proof.
  intros H1 H2 P1 P2 Heq.
  pose proof (magnitude_mono m1 m2 e1 e2 H1 H2 ltac:(lia)) as Ma.
  pose proof (magnitude_mono m2 m1 e2 e1 H2 H1 ltac:(lia)) as Mb.
  assert (Hmag : digits m1 + e1 = digits m2 + e2) by lia.
  unfold roundPos. rewrite <- Hmag.
  rewrite Hmag in P1 at 1. rewrite <- Hmag in P1, P2.
  set (t := fexp64 (digits m1 + e1)) in *.
  pose proof (rne_mono_scaled m1 m2 e1 e2 t H1 H2 P1 P2 ltac:(lia)).
  pose proof (rne_mono_scaled m2 m1 e2 e1 t H2 H1 P2 P1 ltac:(lia)).
  assert (rne (Zpos m1) (t - e1) = rne (Zpos m2) (t - e2)) as -> by lia.
  reflexivity.
Qed.

(** The order of two finite numbers is the order of their values. *)
Lemma finite_le_scaled (m1 m2 : positive) (e1 e2 : Z) :
  bounded prec emax m1 e1 = true -> bounded prec emax m2 e2 = true ->
  SFleb (S754_finite false m1 e1) (S754_finite false m2 e2) = true ->
  scaled m1 e1 <= scaled m2 e2.
Proof.
  intros H1 H2 Hle.
  pose proof (bounded_digits m1 e1 H1) as (B1 & D1 & _).
  pose proof (bounded_digits m2 e2 H2) as (B2 & D2 & N2).
  pose proof (digits_bounds m1) as [_ U1].
  pose proof (digits_bounds m2) as [L2 _].
  unfold scaled.
  pose proof (pow2_pos (e1 + 2148) ltac:(lia)) as P1.
  unfold SFleb, SFcompare in Hle. rewrite Pos.compare_cont_spec in Hle.
  simpl in Hle.
  destruct (Z.compare_spec e1 e2) as [E|E|E]; try discriminate.
  - subst e2. destruct (Pos.compare_spec m1 m2); try discriminate; nia.
  - assert (digits m2 = 53) as Dm by lia. rewrite Dm in L2.
    assert (2 ^ digits m1 <= 2 ^ 53) by (apply Z.pow_le_mono_r; lia).
    assert (2 * 2 ^ (e1 + 2148) <= 2 ^ (e2 + 2148)).
    { rewrite <- Z.pow_succ_r by lia. apply Z.pow_le_mono_r; lia. }
    change (2 ^ 53) with (2 * 2 ^ 52) in *.
    change (2 ^ (53 - 1)) with (2 ^ 52) in *.
    nia.
Qed.

Lemma SFleb_zero_nonneg (s : bool) (y : number) :
  nonneg y = true -> SFleb (S754_zero s) y = true.
Proof.
  destruct y as [sy|sy| |sy m e]; destruct s; try destruct sy;
    simpl; intros; try discriminate; reflexivity.
Qed.

Lemma SFleb_nonneg_inf (y : number) :
  nonneg y = true -> SFleb y (S754_infinity false) = true.
Proof.
  destruct y as [sy|sy| |sy m e]; try destruct sy;
    simpl; intros; try discriminate; reflexivity.
Qed.

Lemma SFleb_refl (y : number) : nonneg y = true -> SFleb y y = true.
Proof.
  destruct y as [sy|sy| |sy m e]; try destruct sy;
    simpl; intros; try discriminate; try reflexivity.
  unfold SFleb, SFcompare.
  rewrite Z.compare_refl, Pos.compare_cont_refl. reflexivity.
Qed.

(** *** Products by a positive constant *)

(** The product of two finite numbers is the rounding of the product of
    their values. *)
Lemma SFmul_finite (mx mc : positive) (ex ec : Z) :
  bounded prec emax mx ex = true -> bounded prec emax mc ec = true ->
  SFmul prec emax (S754_finite false mx ex) (S754_finite false mc ec)
  = roundPos (mx * mc) (ex + ec) /\
  ex + ec <= fexp64 (digits (mx * mc) + (ex + ec)).
Proof.
  intros Hx Hc.
  assert (Hpre : ex + ec <= fexp64 (digits (mx * mc) + (ex + ec))).
  { pose proof (bounded_digits mx ex Hx).
    pose proof (bounded_digits mc ec Hc).
    pose proof (digits_mul_ge mx mc). unfold fexp64. lia. }
  split; [|assumption].
  unfold SFmul. simpl xorb. now apply binary_round_aux_pos.
Qed.

Lemma scaled_mul (mx mc : positive) (ex ec : Z) :
  -1074 <= ex -> -1074 <= ec ->
  scaled (mx * mc) (ex + ec) * 2 ^ 1074
  = scaled mx ex * (Zpos mc * 2 ^ (ec + 1074)).
Proof.
  intros Hx Hc. unfold scaled. rewrite Pos2Z.inj_mul.
  replace (ex + ec + 2148) with ((ex + 2148) + (ec + 1074) + -1074) by lia.
  assert (E : 2 ^ (ex + 2148 + (ec + 1074) + -1074) * 2 ^ 1074
              = 2 ^ (ex + 2148) * 2 ^ (ec + 1074)).
  { rewrite <- !Z.pow_add_r by lia. f_equal. lia. }
  rewrite <- !Z.mul_assoc, E. ring.
Qed.

Section MulConst.

Variables (mc : positive) (ec : Z).
Hypothesis Hc : bounded prec emax mc ec = true.

Lemma SFmul_const_nonneg (x : number) :
  nonneg x = true ->
  nonneg (SFmul prec emax x (S754_finite false mc ec)) = true.
Proof.
  intro Hx. destruct x as [s|s| |s m e]; try discriminate.
  - reflexivity.
  - destruct s; [discriminate|reflexivity].
  - destruct s; [discriminate|]. simpl in Hx.
    destruct (SFmul_finite m mc e ec Hx Hc) as [E P].
    rewrite E. now apply roundPos_nonneg.
Qed.

Lemma SFmul_const_mono (x x' : number) :
  nonneg x = true -> nonneg x' = true -> SFleb x x' = true ->
  SFleb (SFmul prec emax x (S754_finite false mc ec))
        (SFmul prec emax x' (S754_finite false mc ec)) = true.
Proof.
  intros Hx Hx' Hle.
  pose proof (SFmul_const_nonneg x Hx) as Nx.
  pose proof (SFmul_const_nonneg x' Hx') as Nx'.
  destruct x as [s|s| |s m e]; try discriminate.
  - apply SFleb_zero_nonneg. assumption.
  - destruct s; [discriminate|].
    destruct x' as [s'|s'| |s' m' e']; try discriminate.
    destruct s'; [discriminate|]. reflexivity.
  - destruct s; [discriminate|].
    destruct x' as [s'|s'| |s' m' e']; try discriminate.
    + destruct s'; [discriminate|]. apply SFleb_nonneg_inf. assumption.
    + destruct s'; [discriminate|].
      simpl in Hx, Hx'.
      destruct (SFmul_finite m mc e ec Hx Hc) as [E P].
      destruct (SFmul_finite m' mc e' ec Hx' Hc) as [E' P'].
      rewrite E, E'.
      pose proof (bounded_digits m e Hx) as (B & _).
      pose proof (bounded_digits m' e' Hx') as (B' & _).
      pose proof (bounded_digits mc ec Hc) as (Bc & _).
      apply roundPos_mono; try assumption; try lia.
      pose proof (finite_le_scaled m m' e e' Hx Hx' Hle) as Hs.
      pose proof (scaled_mul m mc e ec ltac:(lia) ltac:(lia)) as S1.
      pose proof (scaled_mul m' mc e' ec ltac:(lia) ltac:(lia)) as S2.
      pose proof (pow2_pos (ec + 1074) ltac:(lia)).
      assert (0 < 2 ^ 1074) by (apply pow2_pos; lia).
      apply (Z.mul_le_mono_pos_r _ _ (2 ^ 1074)); [assumption|].
      rewrite S1, S2. apply Z.mul_le_mono_nonneg_r; [lia|assumption].
Qed.

End MulConst.

(** Multiplication by a positive weight. *)
Lemma mul_weight_nonneg (w x : number) :
  positive_finite w = true -> nonneg x = true -> nonneg (x * w)%js = true.
Proof.
  destruct w as [s|s| |s mc ec]; try discriminate.
  destruct s; [discriminate|]. simpl. intros Hw Hx.
  now apply SFmul_const_nonneg.
Qed.

Lemma mul_weight_mono (w x x' : number) :
  positive_finite w = true ->
  nonneg x = true -> nonneg x' = true -> (x <= x')%js = true ->
  (x * w <= x' * w)%js = true.
Proof.
  destruct w as [s|s| |s mc ec]; try discriminate.
  destruct s; [discriminate|]. simpl. intros Hw Hx Hx' Hle.
  now apply SFmul_const_mono.
Qed.

(** *** Sums *)

(** The sum of two finite numbers is the rounding of the sum of their
    values. *)
Lemma SFadd_finite (mx my : positive) (ex ey : Z) :
  bounded prec emax mx ex = true -> bounded prec emax my ey = true ->
  exists mz ez,
    SFadd prec emax (S754_finite false mx ex) (S754_finite false my ey)
    = roundPos mz ez /\
    -2148 <= ez /\ ez <= fexp64 (digits mz + ez) /\
    scaled mz ez = scaled mx ex + scaled my ey.
Proof.
  intros Hx Hy.
  pose proof (bounded_digits mx ex Hx) as (Bx & _).
  pose proof (bounded_digits my ey Hy) as (By & _).
  unfold SFadd. simpl cond_Zopp.
  set (e0 := Z.min ex ey).
  pose proof (shl_align_spec mx ex e0 ltac:(lia) ltac:(lia)) as Ax.
  pose proof (shl_align_spec my ey e0 ltac:(lia) ltac:(lia)) as Ay.
  destruct (shl_align mx ex e0) as [ax e1].
  destruct (shl_align my ey e0) as [ay e2].
  destruct Ax as (E1 & V1 & _). destruct Ay as (E2 & V2 & _).
  assert (E1' : e1 = e0) by lia. assert (E2' : e2 = e0) by lia.
  clear E1 E2. subst e1 e2.
  simpl fst. change (Zpos ax + Zpos ay) with (Zpos (ax + ay)).
  unfold binary_normalize, binary_round. rewrite fexp_eq.
  change (Zpos (digits2_pos (ax + ay))) with (digits (ax + ay)).
  pose proof (fexp64_ge (digits (ax + ay) + e0)) as G.
  pose proof (shl_align_spec (ax + ay) e0
                (fexp64 (digits (ax + ay) + e0)) ltac:(lia) ltac:(lia))
    as Az.
  destruct (shl_align (ax + ay) e0 (fexp64 (digits (ax + ay) + e0)))
    as [mz ez].
  destruct Az as (Ez & Vz & Dz).
  assert (Hpre : ez <= fexp64 (digits mz + ez)) by (rewrite Dz; lia).
  exists mz, ez. split; [now apply binary_round_aux_pos|].
  split; [lia|]. split; [assumption|].
  rewrite Vz, <- V1, <- V2. unfold scaled. rewrite Pos2Z.inj_add. ring.
Qed.

Lemma SFadd_comm (x y : number) : SFadd prec emax x y = SFadd prec emax y x.
Proof.
  destruct x as [sx|sx| |sx mx ex], y as [sy|sy| |sy my ey];
    try reflexivity;
    try (destruct sx, sy; reflexivity).
  unfold SFadd. rewrite (Z.min_comm ex ey), Z.add_comm. reflexivity.
Qed.

Lemma SFadd_nonneg (x y : number) :
  nonneg x = true -> nonneg y = true -> nonneg (SFadd prec emax x y) = true.
Proof.
  intros Hx Hy.
  destruct x as [sx|sx| |sx mx ex]; try discriminate;
    destruct y as [sy|sy| |sy my ey]; try discriminate;
    try (destruct sx; try discriminate); try (destruct sy; try discriminate);
    try reflexivity; try assumption.
  simpl in Hx, Hy.
  destruct (SFadd_finite mx my ex ey Hx Hy) as (mz & ez & E & _ & P & _).
  rewrite E. now apply roundPos_nonneg.
Qed.

(** A sum does not decrease when its left operand does not. *)
Lemma SFadd_mono_l (x x' y : number) :
  nonneg x = true -> nonneg x' = true -> nonneg y = true ->
  SFleb x x' = true ->
  SFleb (SFadd prec emax x y) (SFadd prec emax x' y) = true.
Proof.
  intros Hx Hx' Hy Hle.
  pose proof (SFadd_nonneg x y Hx Hy) as N.
  pose proof (SFadd_nonneg x' y Hx' Hy) as N'.
  destruct x' as [sx'|sx'| |sx' mx' ex']; try discriminate.
  - (* [x'] is a zero, hence so is [x] *)
    destruct x as [sx|sx| |sx mx ex]; try discriminate;
      try (destruct sx; discriminate).
    destruct y as [sy|sy| |sy my ey]; try discriminate.
    + destruct sx, sx', sy; reflexivity.
    + destruct sy; [discriminate|]. reflexivity.
    + simpl. now apply SFleb_refl.
  - (* [x'] is infinite, and so is the sum *)
    destruct sx'; [discriminate|].
    replace (SFadd prec emax (S754_infinity false) y)
      with (S754_infinity false).
    + now apply SFleb_nonneg_inf.
    + destruct y as [sy|sy| |sy my ey]; try discriminate; try reflexivity.
      destruct sy; [discriminate|reflexivity].
  - (* [x'] is finite *)
    destruct sx'; [discriminate|]. simpl in Hx'.
    destruct y as [sy|sy| |sy my ey]; try discriminate.
    + destruct x as [sx|sx| |sx mx ex]; try discriminate.
      * destruct sx, sy; reflexivity.
      * destruct sx; discriminate.
      * exact Hle.
    + destruct sy; [discriminate|].
      destruct x as [sx|sx| |sx mx ex]; try discriminate; try reflexivity.
      destruct sx; discriminate.
    + destruct sy; [discriminate|]. simpl in Hy.
      destruct (SFadd_finite mx' my ex' ey Hx' Hy)
        as (mz' & ez' & E' & L' & P' & V').
      pose proof (bounded_digits mx' ex' Hx') as (Bx' & _).
      pose proof (bounded_digits my ey Hy) as (By & _).
      destruct x as [sx|sx| |sx mx ex]; try discriminate.
      * (* [x] is a zero: [y] against the rounded sum *)
        replace (SFadd prec emax (S754_zero sx) (S754_finite false my ey))
          with (roundPos my ey) by (now rewrite roundPos_id).
        rewrite E'. apply roundPos_mono; try assumption; try lia.
        -- apply bounded_spec in Hy. destruct Hy as [-> _]. lia.
        -- pose proof (scaled_pos mx' ex' ltac:(lia)). lia.
      * destruct sx; discriminate.
      * destruct sx; [discriminate|]. simpl in Hx.
        destruct (SFadd_finite mx my ex ey Hx Hy)
          as (mz & ez & E & L & P & V).
        rewrite E, E'. apply roundPos_mono; try assumption.
        pose proof (finite_le_scaled mx mx' ex ex' Hx Hx' Hle). lia.
Qed.

Lemma SFadd_mono (x x' y y' : number) :
  nonneg x = true -> nonneg x' = true ->
  nonneg y = true -> nonneg y' = true ->
  SFleb x x' = true -> SFleb y y' = true ->
  SFleb (SFadd prec emax x y) (SFadd prec emax x' y') = true.
Proof.
  intros Hx Hx' Hy Hy' Lx Ly.
  apply (SFleb_trans _ (SFadd prec emax x' y)).
  - now apply SFadd_mono_l.
  - rewrite (SFadd_comm x' y), (SFadd_comm x' y'). now apply SFadd_mono_l.
Qed.

(** *** Integers *)

(** A positive integer literal is the rounding of its value. *)
Lemma int_rounds (a : positive) :
  exists m e,
    int (Zpos a) = roundPos m e /\
    -2148 <= e /\ e <= fexp64 (digits m + e) /\
    digits m + e = digits a /\
    (fexp64 (digits a) <= 0 -> e = fexp64 (digits a)) /\
    scaled m e = scaled a 0.
Proof.
  unfold int, binary_normalize, binary_round. rewrite fexp_eq.
  change (Zpos (digits2_pos a)) with (digits a).
  pose proof (fexp64_ge (digits a + 0)) as G.
  pose proof (shl_align_spec a 0 (fexp64 (digits a + 0))
                ltac:(lia) ltac:(lia)) as A.
  destruct (shl_align a 0 (fexp64 (digits a + 0))) as [m e].
  destruct A as (E & V & D).
  rewrite Z.add_0_r in *.
  exists m, e. split; [apply binary_round_aux_pos; rewrite D; lia|].
  repeat split; try assumption; try lia. rewrite D. lia.
Qed.

(** Integers below [2 ^ 53] are numbers: the literal is exact. *)
Lemma int_exact (a : positive) :
  Zpos a < 2 ^ 53 ->
  exists m e,
    int (Zpos a) = S754_finite false m e /\
    bounded prec emax m e = true /\ scaled m e = scaled a 0.
Proof.
  intro Ha.
  pose proof (Zdigits2_le_53 (Zpos a) ltac:(lia)) as Hd.
  change (Zdigits2 (Zpos a)) with (digits a) in Hd.
  pose proof (digits_pos a) as Hp.
  destruct (int_rounds a) as (m & e & E & L & P & D & T & V).
  assert (He : e = fexp64 (digits a)) by (apply T; unfold fexp64; lia).
  assert (Hb : bounded prec emax m e = true).
  { apply bounded_spec. rewrite D. unfold fexp64 in *. lia. }
  exists m, e. rewrite E, (roundPos_id m e Hb). auto.
Qed.

(** The sum of two integers below [2 ^ 53] is their integer sum, rounded
    when it does not fit. *)
Lemma int_add (a b : Z) :
  0 <= a < 2 ^ 53 -> 0 <= b < 2 ^ 53 -> add (int a) (int b) = int (a + b).
Proof.
  intros Ha Hb.
  destruct a as [|a|a]; [|destruct b as [|b|b]|]; try lia.
  - destruct b as [|b|b]; try lia; [reflexivity|].
    destruct (int_exact b ltac:(lia)) as (m & e & E & _).
    simpl Z.add. rewrite E. reflexivity.
  - destruct (int_exact a ltac:(lia)) as (m & e & E & _).
    rewrite Z.add_0_r, E. reflexivity.
  - destruct (int_exact a ltac:(lia)) as (ma & ea & Ea & Ba & Va).
    destruct (int_exact b ltac:(lia)) as (mb & eb & Eb & Bb & Vb).
    destruct (SFadd_finite ma mb ea eb Ba Bb)
      as (mz & ez & Ez & Lz & Pz & Vz).
    change (Zpos a + Zpos b) with (Zpos (a + b)).
    destruct (int_rounds (a + b)) as (m & e & E & L & P & _ & _ & V).
    unfold add. rewrite Ea, Eb, Ez, E.
    apply roundPos_ext; try assumption.
    rewrite Vz, Va, Vb, V. unfold scaled. rewrite Pos2Z.inj_add. ring.
Qed.

(** Rounding a negative value is rounding its opposite. *)
Lemma binary_round_opp (m : positive) (e : Z) :
  binary_round prec emax true m e
  = SFopp (binary_round prec emax false m e).
Proof.
  unfold binary_round.
  destruct (shl_align m e _) as [mz ez].
  unfold binary_round_aux.
  destruct (shr_fexp prec emax (Zpos mz) ez loc_Exact) as [mrs' e'].
  destruct (shr_fexp prec emax _ e' loc_Exact) as [mrs'' e''].
  destruct (shr_m mrs''); try reflexivity.
  destruct (e'' <=? emax - prec); reflexivity.
Qed.

(** The rounding of a value of at least [2 ^ -1074] is above zero. *)
Lemma binary_round_positive (m : positive) (e : Z) :
  -1074 <= e ->
  nonneg (binary_round prec emax false m e) = true /\
  SFleb (binary_round prec emax false m e) (S754_zero false) = false.
Proof.
  intro He. unfold binary_round. rewrite fexp_eq.
  change (Zpos (digits2_pos m)) with (digits m).
  pose proof (fexp64_ge (digits m + e)) as G.
  pose proof (shl_align_spec m e (fexp64 (digits m + e))
                ltac:(lia) ltac:(lia)) as A.
  destruct (shl_align m e (fexp64 (digits m + e))) as [mz ez].
  destruct A as (E & V & D).
  assert (Hpre : ez <= fexp64 (digits mz + ez)) by (rewrite D; lia).
  rewrite binary_round_aux_pos by assumption.
  split; [now apply roundPos_nonneg|].
  assert (HM : 0 < rne (Zpos mz) (fexp64 (digits mz + ez) - ez)).
  { destruct (Z.eq_dec ez (fexp64 (digits mz + ez))) as [Eq|Ne].
    - rewrite <- Eq, Z.sub_diag, rne_0. lia.
    - pose proof (rne_normal mz ez Hpre ltac:(rewrite D in *; lia)). lia. }
  unfold roundPos.
  set (M := rne (Zpos mz) (fexp64 (digits mz + ez) - ez)) in *.
  destruct (M <? 2 ^ 53).
  - unfold pack. destruct M as [|p|p]; try lia.
    destruct (_ <=? 971); reflexivity.
  - unfold pack. simpl. destruct (_ <=? 971); reflexivity.
Qed.

(** The difference of two integers below [2 ^ 53] is a number with the sign
    of the integer difference. *)
Lemma sub_int_sign (a b : Z) :
  0 <= a < 2 ^ 53 -> 0 <= b < 2 ^ 53 ->
  sub (int b) (int a) <> S754_nan /\
  SFleb (sub (int b) (int a)) (int 0) = (b - a <=? 0).
Proof.
  intros Ha Hb.
  destruct a as [|a|a]; [|destruct b as [|b|b]|]; try lia.
  - destruct b as [|b|b]; try lia; [split; [discriminate|reflexivity]|].
    destruct (int_exact b ltac:(lia)) as (m & e & E & _).
    rewrite E. split; [discriminate|reflexivity].
  - destruct (int_exact a ltac:(lia)) as (m & e & E & _).
    rewrite E. split; [discriminate|reflexivity].
  - destruct (int_exact a ltac:(lia)) as (ma & ea & Ea & Ba & Va).
    destruct (int_exact b ltac:(lia)) as (mb & eb & Eb & Bb & Vb).
    pose proof (bounded_digits ma ea Ba) as (Ra & _).
    pose proof (bounded_digits mb eb Bb) as (Rb & _).
    rewrite Ea, Eb. unfold sub, SFsub. simpl cond_Zopp.
    set (e0 := Z.min eb ea).
    pose proof (shl_align_spec mb eb e0 ltac:(lia) ltac:(lia)) as Ab.
    pose proof (shl_align_spec ma ea e0 ltac:(lia) ltac:(lia)) as Aa.
    destruct (shl_align mb eb e0) as [xb e1].
    destruct (shl_align ma ea e0) as [xa e2].
    destruct Ab as (E1 & V1 & _). destruct Aa as (E2 & V2 & _).
    assert (E1' : e1 = e0) by lia. assert (E2' : e2 = e0) by lia.
    clear E1 E2. subst e1 e2. simpl fst.
    assert (Hsign : (Zpos xb - Zpos xa) * 2 ^ (e0 + 2148)
                    = (Zpos b - Zpos a) * 2 ^ 2148).
    { unfold scaled in *. simpl Z.add in Va, Vb. lia. }
    pose proof (pow2_pos (e0 + 2148) ltac:(lia)) as P0.
    assert (P1 : 0 < 2 ^ 2148) by (apply pow2_pos; lia).
    destruct (Zpos xb - Zpos xa) as [|d|d] eqn:Ed.
    + split; [discriminate|].
      destruct (Z.leb_spec (Zpos b - Zpos a) 0); [reflexivity|nia].
    + unfold binary_normalize.
      destruct (binary_round_positive d e0 ltac:(lia)) as [N Pz].
      split; [intro Hn; rewrite Hn in N; discriminate|].
      change (int 0) with (S754_zero false). rewrite Pz.
      destruct (Z.leb_spec (Zpos b - Zpos a) 0); [nia|reflexivity].
    + unfold binary_normalize. rewrite binary_round_opp.
      destruct (binary_round_positive d e0 ltac:(lia)) as [N _].
      destruct (binary_round prec emax false d e0) as [s|s| |s m e];
        try discriminate; try (destruct s; try discriminate);
        (split; [discriminate|]);
        (destruct (Z.leb_spec (Zpos b - Zpos a) 0); [reflexivity|nia]).
Qed.

End Rounding.

(** ** Rarity calculation *)

Module RarityFacts.
Import JsNumber Binary64 Rarity NumberOrder Rounding.
Local Open Scope string_scope.
Local Open Scope js_scope.

Lemma lit_0_1_nearest : lit_0_1 = div #1 #10.
Proof. vm_compute. reflexivity. Qed.

Lemma calculateRarity_unfold f r c s k :
  calculateRarity f r c s k = rarityOf (powerLevel f r c s k).
Proof. reflexivity. Qed.

(** The score is evaluated from left to right. *)
Lemma powerLevel_unfold f r c s k :
  powerLevel f r c s k
  = add (add (add (add (mul f #2) (mul r #1)) (mul c lit_0_1)) (mul s #3))
        (mul k #2).
Proof. reflexivity. Qed.

(** The cases of the unit tests of [calculateRarity]. *)
Lemma calculateRarity_tests :
  calculateRarity #0 #0 #0 #0 #0 = "common" /\
  calculateRarity #10 #5 #10 #0 #0 = "common" /\
  calculateRarity #49 #0 #0 #0 #0 = "common" /\
  calculateRarity #50 #0 #0 #0 #0 = "uncommon" /\
  calculateRarity #30 #20 #100 #0 #0 = "common" /\
  calculateRarity #149 #0 #0 #0 #0 = "uncommon" /\
  calculateRarity #150 #0 #0 #0 #0 = "rare" /\
  calculateRarity #100 #50 #500 #0 #0 = "rare" /\
  calculateRarity #399 #0 #0 #0 #0 = "rare" /\
  calculateRarity #400 #0 #0 #0 #0 = "epic" /\
  calculateRarity #200 #100 #1000 #50 #50 = "epic" /\
  calculateRarity #999 #0 #0 #0 #0 = "epic" /\
  calculateRarity #1000 #0 #0 #0 #0 = "legendary" /\
  calculateRarity #500 #200 #2000 #100 #50 = "epic" /\
  calculateRarity #2499 #0 #0 #0 #0 = "legendary" /\
  calculateRarity #2500 #0 #0 #0 #0 = "mythical" /\
  calculateRarity #1000 #500 #5000 #500 #200 = "legendary" /\
  calculateRarity #10000 #1000 #10000 #1000 #500 = "mythical" /\
  calculateRarity #100 #0 #0 #0 #0 = "uncommon" /\
  calculateRarity #0 #100 #0 #0 #0 = "uncommon" /\
  calculateRarity #0 #0 #1000 #0 #0 = "uncommon" /\
  calculateRarity #0 #0 #0 #100 #0 = "rare" /\
  calculateRarity #0 #0 #0 #0 #100 = "uncommon" /\
  calculateRarity #10 #20 #100 #5 #3 = "common" /\
  calculateRarity #(-10) #(-5) #(-100) #(-10) #(-5) = "common" /\
  calculateRarity #1000000 #100000 #10000000 #100000 #50000 = "mythical" /\
  calculateRarity #0 #0 lit_999_5 #0 #0 = "common".
Proof. vm_compute. repeat split. Qed.

(** Each product and each sum of the score is rounded to a number: the
    largest contribution count below 1000 already scores exactly 100. *)
Lemma powerLevel_rounded :
  (lit_below_1000 < #1000) = true /\
  is_number lit_below_1000 = true /\
  powerLevel #0 #0 lit_below_1000 #0 #0 = #100 /\
  calculateRarity #0 #0 lit_below_1000 #0 #0 = "uncommon".
Proof. vm_compute. repeat split. Qed.

(** The comparisons against the five thresholds can only come out as a
    (possibly empty) run of successes from the lowest threshold up. *)
Lemma threshold_chain (p : number) :
  ((p >= #5000) = true -> (p >= #2000) = true) /\
  ((p >= #2000) = true -> (p >= #800) = true) /\
  ((p >= #800) = true -> (p >= #300) = true) /\
  ((p >= #300) = true -> (p >= #100) = true).
Proof.
  destruct thresholds_ascending as (H1 & H2 & H3 & H4).
  repeat split; apply geb_lower; assumption.
Qed.

Lemma rarityOf_tiers (p : number) : In (rarityOf p) tiers.
Proof.
  unfold rarityOf.
  repeat match goal with
  | |- context [if ?b then _ else _] => destruct b
  end; simpl; tauto.
Qed.

(** C1: [calculateRarity] computes
    [followers*2 + repos*1 + contributions*0.1 + stars*3 + forks*2] and
    classifies it by the descending inclusive thresholds 5000, 2000, 800,
    300 and 100, the first one reached deciding the tier and [common]
    being returned when none is reached. *)
Theorem calculateRarity_thresholds
  (followers repos contributions stars forks : number) :
  let p := followers * #2 + repos * #1 + contributions * lit_0_1 +
           stars * #3 + forks * #2 in
  calculateRarity followers repos contributions stars forks
    = firstMatch thresholds p /\
  (calculateRarity followers repos contributions stars forks = "mythical"
     <-> (p >= #5000) = true) /\
  (calculateRarity followers repos contributions stars forks = "legendary"
     <-> (p >= #5000) = false /\ (p >= #2000) = true) /\
  (calculateRarity followers repos contributions stars forks = "epic"
     <-> (p >= #2000) = false /\ (p >= #800) = true) /\
  (calculateRarity followers repos contributions stars forks = "rare"
     <-> (p >= #800) = false /\ (p >= #300) = true) /\
  (calculateRarity followers repos contributions stars forks = "uncommon"
     <-> (p >= #300) = false /\ (p >= #100) = true) /\
  (calculateRarity followers repos contributions stars forks = "common"
     <-> (p >= #100) = false).
Proof.
  intro p.
  change (calculateRarity followers repos contributions stars forks)
    with (rarityOf p).
  destruct (threshold_chain p) as (C1 & C2 & C3 & C4).
  unfold rarityOf, firstMatch, thresholds.
  destruct (p >= #5000) eqn:E5; destruct (p >= #2000) eqn:E4;
    destruct (p >= #800) eqn:E3; destruct (p >= #300) eqn:E2;
    destruct (p >= #100) eqn:E1;
    try discriminate (C1 eq_refl); try discriminate (C2 eq_refl);
    try discriminate (C3 eq_refl); try discriminate (C4 eq_refl);
    repeat split; intros;
    repeat match goal with H : _ /\ _ |- _ => destruct H end;
    try discriminate; reflexivity.
Qed.

(** C2: the thresholds are inclusive lower bounds.  Power levels of exactly
    100, 300, 800, 2000 and 5000 are classified uncommon, rare, epic,
    legendary and mythical, and 99.999, which is strictly below 100, is
    classified common; the inputs of the test suite reach these power
    levels. *)
Theorem boundary_exactness :
  (forall f r c s k,
      calculateRarity f r c s k = rarityOf (powerLevel f r c s k)) /\
  rarityOf #100 = "uncommon" /\
  rarityOf #300 = "rare" /\
  rarityOf #800 = "epic" /\
  rarityOf #2000 = "legendary" /\
  rarityOf #5000 = "mythical" /\
  (lit_99_999 < #100) = true /\
  rarityOf lit_99_999 = "common" /\
  powerLevel #50 #0 #0 #0 #0 = #100 /\
  powerLevel #150 #0 #0 #0 #0 = #300 /\
  powerLevel #400 #0 #0 #0 #0 = #800 /\
  powerLevel #1000 #0 #0 #0 #0 = #2000 /\
  powerLevel #2500 #0 #0 #0 #0 = #5000.
Proof.
  split; [reflexivity|].
  vm_compute. repeat split.
Qed.

(** C3: the tier is a monotonic step function of the power level: when
    [p1 <= p2], the tier of [p1] is at most the tier of [p2] in the ordering
    common < uncommon < rare < epic < legendary < mythical. *)
Theorem rarityOf_monotone (p1 p2 : number) :
  (p1 <= p2) = true -> tier_le (rarityOf p1) (rarityOf p2).
Proof.
  intro Hle.
  pose proof (geb_mono p1 p2 #5000 Hle) as M5.
  pose proof (geb_mono p1 p2 #2000 Hle) as M4.
  pose proof (geb_mono p1 p2 #800 Hle) as M3.
  pose proof (geb_mono p1 p2 #300 Hle) as M2.
  pose proof (geb_mono p1 p2 #100 Hle) as M1.
  destruct (threshold_chain p2) as (C1 & C2 & C3 & C4).
  unfold rarityOf.
  destruct (p1 >= #5000); [rewrite (M5 eq_refl); vm_compute; lia|clear M5].
  destruct (p1 >= #2000);
    [rewrite (M4 eq_refl) in *; destruct (p2 >= #5000); vm_compute; lia
    |clear M4].
  destruct (p1 >= #800);
    [rewrite (M3 eq_refl) in *;
     destruct (p2 >= #5000); destruct (p2 >= #2000); vm_compute; lia
    |clear M3].
  destruct (p1 >= #300);
    [rewrite (M2 eq_refl) in *;
     destruct (p2 >= #5000); destruct (p2 >= #2000); destruct (p2 >= #800);
     vm_compute; lia
    |clear M2].
  destruct (p1 >= #100);
    destruct (p2 >= #5000); destruct (p2 >= #2000); destruct (p2 >= #800);
    destruct (p2 >= #300); destruct (p2 >= #100);
    vm_compute; lia.
Qed.

Lemma rarityOf_monotone_witness :
  (lit_99_999 <= #100) = true /\
  tier_le (rarityOf lit_99_999) (rarityOf #100).
Proof.
  split; [vm_compute; reflexivity|].
  apply (rarityOf_monotone lit_99_999 #100). vm_compute. reflexivity.
Defined.

Lemma metric_nonneg (x : number) : metric x = nonneg x.
Proof. unfold metric, is_number, geb. now rewrite nonneg_iff. Qed.

Lemma metric_above (x y : number) :
  metric x = true -> is_number y = true -> (x <= y) = true ->
  metric y = true.
Proof.
  unfold metric. intros Hx Hy Hle.
  apply andb_prop in Hx. destruct Hx as [_ Hx].
  rewrite Hy. simpl. unfold geb, leb in *.
  exact (SFleb_trans _ _ _ Hx Hle).
Qed.

(** A weighted metric of the score is at least zero, and grows with the
    metric. *)
Lemma term_nonneg (w x : number) :
  positive_finite w = true -> metric x = true -> nonneg (x * w) = true.
Proof. rewrite metric_nonneg. apply mul_weight_nonneg. Qed.

Lemma term_mono (w x x' : number) :
  positive_finite w = true ->
  metric x = true -> metric x' = true -> (x <= x') = true ->
  (x * w <= x' * w) = true.
Proof. rewrite !metric_nonneg. apply mul_weight_mono. Qed.

(** The score does not decrease when the metrics, all of them at least
    zero, do not. *)
Lemma powerLevel_mono (f f' r r' c c' s s' k k' : number) :
  metric f = true -> metric f' = true -> (f <= f') = true ->
  metric r = true -> metric r' = true -> (r <= r') = true ->
  metric c = true -> metric c' = true -> (c <= c') = true ->
  metric s = true -> metric s' = true -> (s <= s') = true ->
  metric k = true -> metric k' = true -> (k <= k') = true ->
  (powerLevel f r c s k <= powerLevel f' r' c' s' k') = true.
Proof.
  intros. unfold powerLevel, leb, add.
  assert (W2 : positive_finite #2 = true) by reflexivity.
  assert (W1 : positive_finite #1 = true) by reflexivity.
  assert (W01 : positive_finite lit_0_1 = true) by reflexivity.
  assert (W3 : positive_finite #3 = true) by reflexivity.
  repeat first
    [ apply SFadd_mono
    | apply SFadd_nonneg
    | apply term_nonneg
    | apply term_mono ];
    assumption.
Qed.

Lemma metric_le_refl (x : number) : metric x = true -> (x <= x) = true.
Proof. rewrite metric_nonneg. apply SFleb_refl. Qed.

(** C4: for metrics that are all at least zero, the power level is monotonic
    non-decreasing in each metric on its own: raising followers, repos,
    contributions, stars or forks to a larger number [x] while the other four
    stay as they are never lowers the power level. *)
Theorem powerLevel_monotone
  (followers repos contributions stars forks x : number) :
  metric followers = true -> metric repos = true ->
  metric contributions = true -> metric stars = true ->
  metric forks = true -> is_number x = true ->
  ((followers <= x) = true ->
   (powerLevel followers repos contributions stars forks
    <= powerLevel x repos contributions stars forks) = true) /\
  ((repos <= x) = true ->
   (powerLevel followers repos contributions stars forks
    <= powerLevel followers x contributions stars forks) = true) /\
  ((contributions <= x) = true ->
   (powerLevel followers repos contributions stars forks
    <= powerLevel followers repos x stars forks) = true) /\
  ((stars <= x) = true ->
   (powerLevel followers repos contributions stars forks
    <= powerLevel followers repos contributions x forks) = true) /\
  ((forks <= x) = true ->
   (powerLevel followers repos contributions stars forks
    <= powerLevel followers repos contributions stars x) = true).
Proof.
  intros Hf Hr Hc Hs Hk Hx.
  pose proof (metric_le_refl _ Hf). pose proof (metric_le_refl _ Hr).
  pose proof (metric_le_refl _ Hc). pose proof (metric_le_refl _ Hs).
  pose proof (metric_le_refl _ Hk).
  repeat split; intro Hle;
    apply powerLevel_mono; try assumption;
    match type of Hle with
    | (?a <= _) = true =>
        match goal with
        | Ha : metric a = true |- _ => exact (metric_above a x Ha Hx Hle)
        end
    end.
Qed.

Lemma powerLevel_monotone_witness :
  metric #10 = true /\ metric #20 = true /\ metric lit_999_5 = true /\
  metric #5 = true /\ metric #3 = true /\ is_number #1000 = true /\
  (powerLevel #10 #20 lit_999_5 #5 #3
   <= powerLevel #1000 #20 lit_999_5 #5 #3) = true /\
  (powerLevel #10 #20 lit_999_5 #5 #3
   <= powerLevel #10 #1000 lit_999_5 #5 #3) = true /\
  (powerLevel #10 #20 lit_999_5 #5 #3
   <= powerLevel #10 #20 #1000 #5 #3) = true /\
  (powerLevel #10 #20 lit_999_5 #5 #3
   <= powerLevel #10 #20 lit_999_5 #1000 #3) = true /\
  (powerLevel #10 #20 lit_999_5 #5 #3
   <= powerLevel #10 #20 lit_999_5 #5 #1000) = true.
Proof.
  do 6 (split; [reflexivity|]).
  destruct (powerLevel_monotone #10 #20 lit_999_5 #5 #3 #1000)
    as (Hf & Hr & Hc & Hs & Hk); try reflexivity.
  split; [apply Hf; reflexivity|].
  split; [apply Hr; reflexivity|].
  split; [apply Hc; reflexivity|].
  split; [apply Hs; reflexivity|].
  apply Hk; reflexivity.
Defined.

(** C5: [calculateRarity] returns a tier for every input and signals no
    error.  Negative metrics are not clamped to zero, they lower the score
    (the all-negative input of the test suite scores -75 and is common, and
    a negative metric can take a tier away), NaN and infinite inputs are
    classified too, and a fractional metric is used as it is, without
    rounding, in the comparison with the thresholds. *)
Theorem calculateRarity_total :
  (forall f r c s k, In (calculateRarity f r c s k) tiers) /\
  powerLevel #(-10) #(-5) #(-100) #(-10) #(-5) = #(-75) /\
  calculateRarity #(-10) #(-5) #(-100) #(-10) #(-5) = "common" /\
  calculateRarity #100 #0 #0 #0 #0 = "uncommon" /\
  calculateRarity #100 #0 #0 #0 #(-100) = "common" /\
  calculateRarity NaN NaN NaN NaN NaN = "common" /\
  calculateRarity Infinity #0 #0 #0 #0 = "mythical" /\
  (#99 < powerLevel #0 #0 lit_999_5 #0 #0) = true /\
  (powerLevel #0 #0 lit_999_5 #0 #0 < #100) = true /\
  calculateRarity #0 #0 lit_999_5 #0 #0 = "common" /\
  calculateRarity #0 #0 #1000 #0 #0 = "uncommon".
Proof.
  split; [intros; apply rarityOf_tiers|].
  vm_compute. repeat split.
Qed.

(** C10: the string returned by [calculateRarity] is always one of common,
    uncommon, rare, epic, legendary and mythical, each a key of
    [RARITY_LEVELS], so that the table has a display name, a colour and a
    gradient for every classification result. *)
Theorem calculateRarity_in_RARITY_LEVELS (f r c s k : number) :
  In (calculateRarity f r c s k)
     ["common"; "uncommon"; "rare"; "epic"; "legendary"; "mythical"] /\
  exists level,
    lookup (calculateRarity f r c s k) RARITY_LEVELS = Some level /\
    In (calculateRarity f r c s k, level) RARITY_LEVELS /\
    name level <> "" /\ color level <> "" /\ gradient level <> "".
Proof.
  pose proof (rarityOf_tiers (powerLevel f r c s k)) as Hin.
  rewrite <- calculateRarity_unfold in Hin.
  split; [exact Hin|].
  simpl in Hin.
  destruct Hin as [H|[H|[H|[H|[H|[H|[]]]]]]]; rewrite <- H;
    eexists; (split; [reflexivity|]);
    (split; [simpl; tauto|]); repeat split; discriminate.
Qed.

End RarityFacts.

(** ** Username cleaning *)

Module UsernameFacts.
Import Username.
Local Open Scope list_scope.

Lemma trimStart_split (s : jsstring) :
  exists l, s = l ++ trimStart s /\ forallb isWhiteSpace l = true.
Proof.
  induction s as [|c s IH]; simpl.
  - exists []. split; reflexivity.
  - destruct (isWhiteSpace c) eqn:Hc.
    + destruct IH as (l & Hs & Hl).
      exists (c :: l). simpl. rewrite Hc, Hl. split; [congruence|reflexivity].
    + exists []. split; reflexivity.
Qed.

Lemma trimStart_noLeadingSpace (s : jsstring) :
  noLeadingSpace (trimStart s) = true.
Proof.
  induction s as [|c s IH]; simpl; [reflexivity|].
  destruct (isWhiteSpace c) eqn:Hc; [exact IH|]. simpl. now rewrite Hc.
Qed.

Lemma forallb_rev (f : N -> bool) (l : list N) :
  forallb f (rev l) = forallb f l.
Proof.
  induction l as [|x l IH]; simpl; [reflexivity|].
  rewrite forallb_app, IH. simpl. rewrite andb_true_r. apply andb_comm.
Qed.

Lemma trimEnd_split (s : jsstring) :
  exists r, s = trimEnd s ++ r /\ forallb isWhiteSpace r = true.
Proof.
  unfold trimEnd.
  destruct (trimStart_split (rev s)) as (l & Hs & Hl).
  exists (rev l). split.
  - rewrite <- rev_app_distr, <- Hs. symmetry. apply rev_involutive.
  - now rewrite forallb_rev.
Qed.

Lemma trimEnd_noTrailingSpace (s : jsstring) :
  noLeadingSpace (rev (trimEnd s)) = true.
Proof.
  unfold trimEnd. rewrite rev_involutive. apply trimStart_noLeadingSpace.
Qed.

(** Trimming the end of a string that starts with a printing code unit
    leaves that start in place. *)
Lemma trimEnd_keeps_start (s : jsstring) :
  noLeadingSpace s = true -> noLeadingSpace (trimEnd s) = true.
Proof.
  intro Hs.
  destruct (trimEnd_split s) as (r & Heq & Hr).
  destruct (trimEnd s) as [|c t] eqn:Ht; [reflexivity|].
  rewrite Heq in Hs. exact Hs.
Qed.

Lemma trim_split (s : jsstring) :
  exists l r, s = l ++ trim s ++ r /\
              forallb isWhiteSpace l = true /\
              forallb isWhiteSpace r = true.
Proof.
  unfold trim.
  destruct (trimStart_split s) as (l & Hs & Hl).
  destruct (trimEnd_split (trimStart s)) as (r & Ht & Hr).
  exists l, r. repeat split; try assumption.
  rewrite <- Ht. exact Hs.
Qed.

Lemma count_at_app (s t : jsstring) :
  count_at (s ++ t) = (count_at s + count_at t)%nat.
Proof. unfold count_at. now rewrite filter_app, length_app. Qed.

Lemma count_at_space (s : jsstring) :
  forallb isWhiteSpace s = true -> count_at s = O.
Proof.
  unfold count_at.
  induction s as [|c s IH]; simpl; [reflexivity|].
  intro H. apply andb_prop in H. destruct H as [Hc Hs].
  destruct (c =? at_sign)%N eqn:E.
  - apply N.eqb_eq in E. subst c. discriminate Hc.
  - now apply IH.
Qed.

Lemma count_at_trim (s : jsstring) : count_at (trim s) = count_at s.
Proof.
  destruct (trim_split s) as (l & r & Hs & Hl & Hr).
  rewrite Hs at 2.
  rewrite !count_at_app, (count_at_space l Hl), (count_at_space r Hr).
  lia.
Qed.

(** C6: [getCleanUsername] removes one ['@'] exactly when it is the first
    code unit of the input and then trims the white space around the
    result; a ['@'] behind leading white space and every internal ['@']
    stay. *)
Theorem getCleanUsername_spec :
  (forall s,
      getCleanUsername s = trim (if startsWithAt s then tl s else s)) /\
  (forall s,
      count_at (getCleanUsername s) =
      (count_at s - (if startsWithAt s then 1 else 0))%nat) /\
  (forall s, exists l r,
      (if startsWithAt s then tl s else s) = l ++ getCleanUsername s ++ r /\
      forallb isWhiteSpace l = true /\ forallb isWhiteSpace r = true /\
      noLeadingSpace (getCleanUsername s) = true /\
      noLeadingSpace (rev (getCleanUsername s)) = true) /\
  getCleanUsername (str "@octocat") = str "octocat" /\
  getCleanUsername (str "  @octocat  ") = str "@octocat" /\
  getCleanUsername (str "@@a") = str "@a" /\
  getCleanUsername (str "user@name") = str "user@name" /\
  getCleanUsername (str "@user@name") = str "user@name".
Proof.
  assert (Hdef : forall s,
             getCleanUsername s = trim (if startsWithAt s then tl s else s)).
  { intros [|c s]; [reflexivity|].
    unfold getCleanUsername, replace_leading_at, startsWithAt.
    simpl tl. now destruct (c =? at_sign)%N. }
  split; [exact Hdef|].
  split.
  { intro s. rewrite Hdef, count_at_trim.
    destruct s as [|c s]; [reflexivity|].
    unfold startsWithAt. destruct (c =? at_sign)%N eqn:E.
    - simpl tl. apply N.eqb_eq in E. subst c.
      unfold count_at. simpl. lia.
    - lia. }
  split.
  { intro s. rewrite Hdef.
    destruct (trim_split (if startsWithAt s then tl s else s))
      as (l & r & Hs & Hl & Hr).
    exists l, r. repeat split; try assumption.
    - unfold trim. apply trimEnd_keeps_start, trimStart_noLeadingSpace.
    - unfold trim. apply trimEnd_noTrailingSpace. }
  vm_compute. repeat split.
Qed.

End UsernameFacts.

(** ** Contribution totals *)

Module ContributionsFacts.
Import Contributions.
Local Open Scope Z_scope.

Lemma sumZ_app (l1 l2 : list Z) : sumZ (l1 ++ l2) = sumZ l1 + sumZ l2.
Proof. induction l1 as [|x l1 IH]; simpl; lia. Qed.

Lemma fold_days (days : list ContributionDay) (acc : Z) :
  fold_left (fun s day => s + contributionCount day) days acc
  = acc + sumZ (map contributionCount days).
Proof.
  revert acc. induction days as [|d days IH]; intro acc; simpl.
  - lia.
  - rewrite IH. lia.
Qed.

Lemma fold_weeks (weeks : list Week) (acc : Z) :
  fold_left
    (fun sum week =>
       sum + fold_left (fun s day => s + contributionCount day)
                       (contributionDays week) 0)
    weeks acc
  = acc + sumZ (allCounts weeks).
Proof.
  revert acc. induction weeks as [|w weeks IH]; intro acc; simpl.
  - lia.
  - rewrite IH, fold_days, sumZ_app. lia.
Qed.

Lemma sumZ_nonneg (l : list Z) : Forall (fun c => 0 <= c) l -> 0 <= sumZ l.
Proof. induction 1; simpl; lia. Qed.

Lemma fold_days_number (l : list Z) (acc : Z) :
  0 <= acc -> Forall (fun c => 0 <= c) l -> acc + sumZ l < 2 ^ 53 ->
  fold_left (fun s day => JsNumber.add s day) (map JsNumber.int l)
            (JsNumber.int acc)
  = JsNumber.int (acc + sumZ l).
Proof.
  intros Hacc Hl. revert acc Hacc.
  induction Hl as [|c l Hc Hl IH]; intros acc Hacc Hsum; simpl in *.
  - now rewrite Z.add_0_r.
  - pose proof (sumZ_nonneg l Hl).
    rewrite Rounding.int_add by lia.
    rewrite IH by lia. f_equal. lia.
Qed.

Lemma fold_weeks_number (weeks : list Week) (acc : Z) :
  0 <= acc -> Forall (fun c => 0 <= c) (allCounts weeks) ->
  acc + sumZ (allCounts weeks) < 2 ^ 53 ->
  fold_left
    (fun sum week =>
       JsNumber.add sum
         (fold_left (fun s day => JsNumber.add s day) week (JsNumber.int 0)))
    (asNumbers weeks) (JsNumber.int acc)
  = JsNumber.int (acc + sumZ (allCounts weeks)).
Proof.
  revert acc.
  induction weeks as [|w weeks IH]; intros acc Hacc Hall Hsum; simpl in *.
  - now rewrite Z.add_0_r.
  - apply Forall_app in Hall. destruct Hall as [Hw Hrest].
    rewrite sumZ_app in Hsum.
    pose proof (sumZ_nonneg _ Hw). pose proof (sumZ_nonneg _ Hrest).
    rewrite <- map_map, (fold_days_number _ 0) by (assumption || lia).
    rewrite Rounding.int_add by lia.
    rewrite IH by (assumption || lia).
    rewrite sumZ_app. f_equal. lia.
Qed.

(** X13: on counts that are natural numbers with a total below [2 ^ 53], the
    additions of the language are exact: the reduction on numbers yields the
    integer total. *)
Lemma total_number_exact (weeks : list Week) :
  Forall (fun c => 0 <= c) (allCounts weeks) ->
  sumZ (allCounts weeks) < 2 ^ 53 ->
  total_number (asNumbers weeks) = JsNumber.int (total weeks).
Proof.
  intros Hall Hsum. unfold total_number, total.
  rewrite (fold_weeks_number weeks 0), fold_weeks by (assumption || lia).
  reflexivity.
Qed.


End ContributionsFacts.

(** ** Repository statistics *)

Module StatsFacts.
Import Contributions Stats ContributionsFacts.
Local Open Scope Z_scope.

Lemma or_zero_present (v : Z) : or_zero (Some v) = v.
Proof. unfold or_zero. destruct (Z.eqb_spec v 0); congruence. Qed.

Lemma fold_field (field : Repo -> option Z) (repos : list Repo) (acc : Z) :
  fold_left (fun sum repo => sum + or_zero (field repo)) repos acc
  = acc + sumZ (present field repos).
Proof.
  revert acc. induction repos as [|r repos IH]; intro acc; simpl.
  - lia.
  - rewrite IH. destruct (field r) as [v|].
    + rewrite or_zero_present. simpl. lia.
    + simpl. lia.
Qed.

Lemma or_zero_number_int (v : option Z) :
  match v with Some c => 0 <= c < 2 ^ 53 | None => True end ->
  or_zero_number (option_map JsNumber.int v) = JsNumber.int (or_zero v).
Proof.
  destruct v as [c|]; [|reflexivity]. intro Hc.
  rewrite or_zero_present. simpl.
  destruct c as [|c|c]; [reflexivity| |lia].
  destruct (Rounding.int_exact c ltac:(lia)) as (m & e & -> & _).
  reflexivity.
Qed.

(** X14: on counters that are natural numbers with a total below [2 ^ 53],
    the reduction on numbers, in which an absent field, a zero and NaN count
    as zero, yields the integer total. *)
Lemma sumField_number_exact (field : Repo -> option Z) (repos : list Repo) :
  Forall (fun c => 0 <= c) (present field repos) ->
  sumZ (present field repos) < 2 ^ 53 ->
  sumField_number (map (fun repo => option_map JsNumber.int (field repo)) repos)
  = JsNumber.int (sumField field repos).
Proof.
  intros Hall Hsum. unfold sumField_number, sumField.
  rewrite fold_field.
  cut (forall acc, 0 <= acc -> acc + sumZ (present field repos) < 2 ^ 53 ->
         fold_left (fun sum f => JsNumber.add sum (or_zero_number f))
           (map (fun repo => option_map JsNumber.int (field repo)) repos)
           (JsNumber.int acc)
         = JsNumber.int (acc + sumZ (present field repos))).
  { intro H. apply H; lia. }
  clear Hsum.
  induction repos as [|r repos IH]; intros acc Hacc Hsum.
  - simpl. now rewrite Z.add_0_r.
  - cbn [map fold_left]. unfold present in *. cbn [flat_map] in *.
    rewrite sumZ_app in Hsum. rewrite sumZ_app.
    apply Forall_app in Hall. destruct Hall as [Hr Hrest].
    pose proof (sumZ_nonneg _ Hr). pose proof (sumZ_nonneg _ Hrest).
    assert (Hv : or_zero_number (option_map JsNumber.int (field r))
                 = JsNumber.int
                     (sumZ match field r with Some v => [v] | None => [] end)).
    { destruct (field r) as [c|]; [|reflexivity].
      inversion Hr; subst. cbn [sumZ] in *.
      rewrite (or_zero_number_int (Some c)) by lia.
      rewrite or_zero_present. f_equal. lia. }
    rewrite Hv, Rounding.int_add by lia.
    rewrite IH by (assumption || lia). f_equal. lia.
Qed.


End StatsFacts.

(** ** Language statistics *)

Module LanguagesFacts.
Import Languages.
Local Open Scope Z_scope.

Lemma insert_perm (x : string * Z) (l : entries) :
  Permutation (insert (fun v => v <=? 0) compareFn x l) (x :: l).
Proof.
  induction l as [|y l IH]; simpl; [reflexivity|].
  destruct (compareFn x y <=? 0); [reflexivity|].
  rewrite IH. apply perm_swap.
Qed.

Lemma sort_perm (l : entries) : Permutation (sort compareFn l) l.
Proof.
  induction l as [|x l IH]; simpl; [reflexivity|].
  unfold sort in *. simpl. rewrite insert_perm. now constructor.
Qed.

Lemma insert_sorted (x : string * Z) (l : entries) :
  StronglySorted count_ge l ->
  StronglySorted count_ge (insert (fun v => v <=? 0) compareFn x l).
Proof.
  induction 1 as [|y l Hl IH Hy]; simpl.
  - repeat constructor.
  - unfold compareFn at 1.
    destruct (Z.leb_spec (snd y - snd x) 0) as [Hle|Hgt].
    + constructor; [now constructor|].
      constructor; [unfold count_ge; lia|].
      eapply Forall_impl; [|exact Hy].
      intros z Hz. unfold count_ge in *. lia.
    + constructor; [exact IH|].
      eapply Permutation_Forall; [symmetry; apply insert_perm|].
      constructor; [unfold count_ge; lia|exact Hy].
Qed.

Lemma sort_sorted (l : entries) : StronglySorted count_ge (sort compareFn l).
Proof.
  induction l as [|x l IH]; simpl; [constructor|].
  now apply insert_sorted.
Qed.

(** Insertion never moves an entry past another entry of the same count. *)
Lemma insert_withCount (c : Z) (x : string * Z) (l : entries) :
  withCount c (insert (fun v => v <=? 0) compareFn x l) = withCount c (x :: l).
Proof.
  induction l as [|y l IH]; [reflexivity|].
  simpl insert. unfold compareFn at 1.
  destruct (Z.leb_spec (snd y - snd x) 0) as [Hle|Hgt]; [reflexivity|].
  unfold withCount in *. simpl in *. rewrite IH.
  destruct (Z.eqb_spec (snd x) c), (Z.eqb_spec (snd y) c);
    try reflexivity; lia.
Qed.

Lemma sort_stable (c : Z) (l : entries) :
  withCount c (sort compareFn l) = withCount c l.
Proof.
  induction l as [|x l IH]; [reflexivity|].
  unfold sort in *. simpl sortBy. rewrite insert_withCount.
  unfold withCount in *. simpl. now rewrite IH.
Qed.

Section SortMap.
Context {A B R S : Type}.
Variables (sa : R -> bool) (ca : A -> A -> R).
Variables (sb : S -> bool) (cb : B -> B -> S).
Variables (f : A -> B) (P : A -> Prop).
Hypothesis decisions :
  forall x y, P x -> P y -> sb (cb (f x) (f y)) = sa (ca x y).

Lemma insert_Forall (x : A) (l : list A) :
  P x -> Forall P l -> Forall P (insert sa ca x l).
Proof.
  intros Hx Hl. induction Hl as [|y l Hy Hl IH]; simpl.
  - now repeat constructor.
  - destruct (sa (ca x y)); repeat constructor; assumption.
Qed.

Lemma sortBy_Forall (l : list A) : Forall P l -> Forall P (sortBy sa ca l).
Proof.
  induction 1 as [|x l Hx Hl IH]; simpl; [constructor|].
  now apply insert_Forall.
Qed.

Lemma insert_map (x : A) (l : list A) :
  P x -> Forall P l ->
  insert sb cb (f x) (map f l) = map f (insert sa ca x l).
Proof.
  intros Hx Hl. induction Hl as [|y l Hy Hl IH]; [reflexivity|].
  simpl. rewrite (decisions x y Hx Hy).
  destruct (sa (ca x y)); [reflexivity|]. simpl. now rewrite IH.
Qed.

(** Sorting commutes with a change of representation that keeps every
    decision of the comparator. *)
Lemma sortBy_map (l : list A) :
  Forall P l -> sortBy sb cb (map f l) = map f (sortBy sa ca l).
Proof.
  induction 1 as [|x l Hx Hl IH]; [reflexivity|].
  simpl. rewrite IH. apply insert_map; [assumption|].
  now apply sortBy_Forall.
Qed.

End SortMap.

(** On counts that are natural numbers below [2 ^ 53] the subtraction of the
    comparator has the sign of the integer difference. *)
Lemma compareFn_number_sign (x y : string * Z) :
  0 <= snd x < 2 ^ 53 -> 0 <= snd y < 2 ^ 53 ->
  nonpositive_number (compareFn_number (asNumber x) (asNumber y))
  = (compareFn x y <=? 0).
Proof.
  intros Hx Hy. unfold compareFn_number, compareFn, asNumber. simpl snd.
  destruct (Rounding.sub_int_sign (snd x) (snd y) Hx Hy) as [Hnan Hsign].
  unfold nonpositive_number, JsNumber.leb.
  destruct (JsNumber.sub (JsNumber.int (snd y)) (JsNumber.int (snd x)));
    try exact Hsign.
  exfalso. now apply Hnan.
Qed.

(** X15: on counts that are natural numbers below [2 ^ 53] the ranking
    computed with the subtraction of the language is the ranking on
    integers. *)
Lemma topLanguages_number_exact (languageCount : entries) :
  Forall (fun x => 0 <= snd x < 2 ^ 53) languageCount ->
  topLanguages_number (map asNumber languageCount)
  = topLanguages languageCount.
Proof.
  intro Hall. unfold topLanguages_number, topLanguages, sort, slice_0_3.
  rewrite (sortBy_map (fun v => v <=? 0) compareFn
             nonpositive_number compareFn_number asNumber
             (fun x => 0 <= snd x < 2 ^ 53) compareFn_number_sign
             languageCount Hall).
  rewrite firstn_map, map_map. reflexivity.
Qed.

(** C7: the top languages are the names of the first three entries of the
    mapping sorted by count, highest first, entries of equal count keeping
    their order of insertion; a mapping of fewer than three entries yields
    all its names in that order. *)
Theorem topLanguages_spec :
  (forall languageCount,
      topLanguages languageCount
      = map fst (firstn 3 (sort compareFn languageCount))) /\
  (forall languageCount,
      Permutation (sort compareFn languageCount) languageCount) /\
  (forall languageCount,
      StronglySorted count_ge (sort compareFn languageCount)) /\
  (forall languageCount c,
      withCount c (sort compareFn languageCount) = withCount c languageCount) /\
  (forall languageCount,
      List.length (topLanguages languageCount)
      = Nat.min 3 (List.length languageCount)) /\
  topLanguages [] = [] /\
  (forall x, topLanguages [x] = [fst x]) /\
  (forall x y,
      topLanguages [x; y]
      = if snd y <=? snd x then [fst x; fst y] else [fst y; fst x]) /\
  topLanguages [("JavaScript", 15); ("Python", 8);
                ("TypeScript", 20); ("Go", 5)]%string
  = ["TypeScript"; "JavaScript"; "Python"]%string /\
  topLanguages [("JavaScript", 10); ("Python", 10); ("TypeScript", 5)]%string
  = ["JavaScript"; "Python"; "TypeScript"]%string.
Proof.
  split; [reflexivity|].
  split; [intro; apply sort_perm|].
  split; [intro; apply sort_sorted|].
  split; [intros; apply sort_stable|].
  split.
  { intro l. unfold topLanguages, slice_0_3.
    rewrite length_map, length_firstn.
    now rewrite (Permutation_length (sort_perm l)). }
  split; [reflexivity|].
  split; [reflexivity|].
  split.
  { intros x y. unfold topLanguages, slice_0_3, sort. simpl. unfold compareFn.
    destruct (Z.leb_spec (snd y - snd x) 0), (Z.leb_spec (snd y) (snd x));
      try reflexivity; lia. }
  split; reflexivity.
Qed.

End LanguagesFacts.

(** ** Exact arithmetic on natural numbers below [2 ^ 53] *)

Module IntegerArithmetic.
Import JsNumber Binary64 NumberOrder Rounding.
Local Open Scope Z_scope.

(** The product of two integers below [2 ^ 53] is their integer product,
    rounded when it does not fit. *)
Lemma int_mul (a w : Z) :
  0 <= a < 2 ^ 53 -> 0 <= w < 2 ^ 53 -> mul (int a) (int w) = int (a * w).
Proof.
  intros Ha Hw.
  destruct a as [|a|a]; [|destruct w as [|w|w]|]; try lia.
  - destruct w as [|w|w]; try lia; [reflexivity|].
    destruct (int_exact w ltac:(lia)) as (m & e & E & _).
    rewrite E. reflexivity.
  - destruct (int_exact a ltac:(lia)) as (m & e & E & _).
    rewrite Z.mul_0_r, E. reflexivity.
  - destruct (int_exact a ltac:(lia)) as (ma & ea & Ea & Ba & Va).
    destruct (int_exact w ltac:(lia)) as (mw & ew & Ew & Bw & Vw).
    destruct (SFmul_finite ma mw ea ew Ba Bw) as [Em Pm].
    pose proof (bounded_digits ma ea Ba) as (Ra & _).
    pose proof (bounded_digits mw ew Bw) as (Rw & _).
    change (Zpos a * Zpos w) with (Zpos (a * w)).
    destruct (int_rounds (a * w)) as (m & e & E & L & P & _ & _ & V).
    unfold mul. rewrite Ea, Ew, Em, E.
    apply roundPos_ext; try assumption; try lia.
    rewrite V. unfold scaled in *. rewrite !Pos2Z.inj_mul.
    simpl Z.add in Va, Vw |- *.
    assert (P0 : 0 < 2 ^ 2148) by (apply pow2_pos; lia).
    apply (Z.mul_reg_r _ _ (2 ^ 2148)); [lia|].
    replace (Zpos a * Zpos w * 2 ^ 2148 * 2 ^ 2148)
      with ((Zpos a * 2 ^ 2148) * (Zpos w * 2 ^ 2148)) by ring.
    rewrite <- Va, <- Vw.
    replace (ea + ew + 2148) with ((ea + 2148) + (ew + 2148) + -2148) by lia.
    assert (E2 : 2 ^ (ea + 2148 + (ew + 2148) + -2148) * 2 ^ 2148
                 = 2 ^ (ea + 2148) * 2 ^ (ew + 2148)).
    { rewrite <- !Z.pow_add_r by lia. f_equal. lia. }
    rewrite <- !Z.mul_assoc, E2. ring.
Qed.

(** Integers below [2 ^ 53] compare as numbers the way they compare as
    integers. *)
Lemma int_le (a b : Z) :
  0 <= a < 2 ^ 53 -> 0 <= b < 2 ^ 53 -> SFleb (int a) (int b) = (a <=? b).
Proof.
  intros Ha Hb.
  destruct a as [|a|a]; try lia.
  - destruct b as [|b|b]; try lia; [reflexivity|].
    destruct (int_exact b ltac:(lia)) as (m & e & E & _).
    rewrite E. reflexivity.
  - destruct (int_exact a ltac:(lia)) as (ma & ea & Ea & Ba & Va).
    destruct b as [|b|b]; try lia; [rewrite Ea; reflexivity|].
    destruct (int_exact b ltac:(lia)) as (mb & eb & Eb & Bb & Vb).
    pose proof (bounded_digits ma ea Ba) as (Ra & _).
    pose proof (bounded_digits mb eb Bb) as (Rb & _).
    assert (P0 : 0 < 2 ^ 2148) by (apply pow2_pos; lia).
    rewrite Ea, Eb.
    destruct (Z.leb_spec (Zpos a) (Zpos b)) as [Hle|Hgt].
    + rewrite <- (roundPos_id ma ea Ba), <- (roundPos_id mb eb Bb).
      apply bounded_spec in Ba, Bb. destruct Ba as [Ca _], Bb as [Cb _].
      apply roundPos_mono; try lia.
      rewrite Va, Vb. unfold scaled. simpl Z.add. nia.
    + destruct (SFleb (S754_finite false ma ea) (S754_finite false mb eb))
        eqn:El; [exfalso|reflexivity].
      pose proof (finite_le_scaled ma mb ea eb Ba Bb El) as Hs.
      rewrite Va, Vb in Hs. unfold scaled in Hs. simpl Z.add in Hs. nia.
Qed.

(** A value below [2 ^ D] has magnitude [D] at most. *)
Lemma magnitude_upper (m : positive) (e D : Z) :
  -2148 <= e -> scaled m e < 2 ^ (D + 2148) -> digits m + e <= D.
Proof.
  unfold scaled. intros He Hlt.
  pose proof (digits_bounds m) as [L _]. pose proof (digits_pos m).
  pose proof (pow2_pos (e + 2148) ltac:(lia)) as P.
  assert (A : 2 ^ (digits m - 1 + (e + 2148)) <= Zpos m * 2 ^ (e + 2148)).
  { rewrite (Z.pow_add_r 2 (digits m - 1) (e + 2148)) by lia.
    apply Z.mul_le_mono_nonneg_r; lia. }
  destruct (Z.leb_spec (digits m + e) D); [assumption|exfalso].
  assert (2 ^ (D + 2148) <= 2 ^ (digits m - 1 + (e + 2148)))
    by (apply Z.pow_le_mono_r; lia).
  lia.
Qed.

(** The weight [0.1] is [(2 ^ 55 + 2) / 10 / 2 ^ 55]: it exceeds one tenth
    by one part in [2 ^ 54] exactly. *)
Lemma lit_0_1_excess : 5 * 7205759403792794 = 2 ^ 55 + 2.
Proof. reflexivity. Qed.

(** Ten times a natural number, multiplied by [0.1], is that number: the
    excess of the weight is rounded away. *)
Lemma mul_tenth (t : Z) :
  0 <= t -> 10 * t < 2 ^ 53 -> mul (int (10 * t)) lit_0_1 = int t.
Proof.
  intros Ht Hx.
  destruct t as [|t|t]; [reflexivity| |lia].
  change (10 * Zpos t) with (Zpos (10 * t)) in *.
  destruct (int_exact (10 * t) ltac:(lia)) as (mx & ex & Ex & Bx & Vx).
  destruct (int_exact t ltac:(lia)) as (mc & ec & Ec & Bc & Vc).
  assert (B01 : bounded prec emax 7205759403792794 (-56) = true)
    by reflexivity.
  destruct (SFmul_finite mx 7205759403792794 ex (-56) Bx B01) as [Em Pm].
  unfold mul, lit_0_1. rewrite Ex, Em, Ec.
  pose proof (bounded_digits mx ex Bx) as (Rx & _).
  pose proof (bounded_digits mc ec Bc) as (Rc & Dc & _).
  pose proof (digits_bounds mc) as [_ Uc].
  assert (Umc : Zpos mc < 2 ^ 53).
  { assert (2 ^ digits mc <= 2 ^ 53) by (apply Z.pow_le_mono_r; lia). lia. }
  set (Pr := (mx * 7205759403792794)%positive) in *.
  set (E := ex + -56) in *.
  assert (P0 : 0 < 2 ^ 2148) by (apply pow2_pos; lia).
  pose proof (pow2_pos (E + 2148) ltac:(unfold E; lia)) as PE.
  pose proof (pow2_pos (ec + 2148) ltac:(lia)) as PC.
  (* the product is the quotient, plus one part in 2 ^ 54 *)
  assert (F1 : scaled mx ex = 10 * scaled mc ec).
  { rewrite Vx, Vc. unfold scaled. rewrite Pos2Z.inj_mul. ring. }
  assert (F3 : scaled Pr E * 2 ^ 54 = scaled mc ec * (2 ^ 54 + 1)).
  { assert (A : scaled Pr E * 2 ^ 56 = 7205759403792794 * scaled mx ex).
    { unfold scaled, Pr, E. rewrite Pos2Z.inj_mul.
      replace (ex + 2148) with ((ex + -56 + 2148) + 56) by lia.
      rewrite (Z.pow_add_r 2 (ex + -56 + 2148) 56) by lia. ring. }
    rewrite F1 in A.
    pose proof lit_0_1_excess as X.
    change (2 ^ 56) with (4 * 2 ^ 54) in A.
    change (2 ^ 55) with (2 * 2 ^ 54) in X. lia. }
  (* it has the magnitude of the quotient *)
  assert (Hmag : digits Pr + E = digits mc + ec).
  { apply Z.le_antisymm.
    - apply magnitude_upper; [unfold E; lia|].
      assert (U : scaled mc ec < 2 ^ digits mc * 2 ^ (ec + 2148))
        by (unfold scaled; apply Z.mul_lt_mono_pos_r; lia).
      assert (U' : scaled mc ec + 2 ^ (ec + 2148)
                   <= 2 ^ digits mc * 2 ^ (ec + 2148))
        by (unfold scaled in *; nia).
      assert (V54 : 2 ^ digits mc <= 2 ^ 53)
        by (apply Z.pow_le_mono_r; lia).
      replace (digits mc + ec + 2148) with (digits mc + (ec + 2148)) by lia.
      rewrite Z.pow_add_r by lia.
      change (2 ^ 53) with 9007199254740992 in V54.
      change (2 ^ 54) with 18014398509481984 in F3.
      nia.
    - apply magnitude_mono; try (unfold E; lia).
      change (2 ^ 54) with 18014398509481984 in F3.
      pose proof (scaled_pos mc ec ltac:(lia)). nia. }
  assert (Hc : fexp64 (digits mc + ec) = ec)
    by (apply bounded_spec in Bc; tauto).
  unfold roundPos. rewrite Hmag, Hc. rewrite Hmag, Hc in Pm.
  set (n := ec - E) in *.
  pose proof (pow2_pos n ltac:(unfold n; lia)) as PN.
  assert (Hid : Zpos Pr * 2 ^ 54 = Zpos mc * 2 ^ n * (2 ^ 54 + 1)).
  { apply (Z.mul_reg_r _ _ (2 ^ (E + 2148))); [lia|].
    assert (S1 : 2 ^ n * 2 ^ (E + 2148) = 2 ^ (ec + 2148)).
    { rewrite <- Z.pow_add_r by (unfold n; lia). f_equal. unfold n. lia. }
    unfold scaled in F3.
    replace (Zpos mc * 2 ^ n * (2 ^ 54 + 1) * 2 ^ (E + 2148))
      with (Zpos mc * (2 ^ n * 2 ^ (E + 2148)) * (2 ^ 54 + 1)) by ring.
    rewrite S1. lia. }
  assert (Hq : Zpos Pr / 2 ^ n = Zpos mc /\
               2 * (Zpos Pr mod 2 ^ n) < 2 ^ n).
  { change (2 ^ 53) with 9007199254740992 in Umc.
    change (2 ^ 54) with 18014398509481984 in Hid.
    assert (Hd : Zpos Pr / 2 ^ n = Zpos mc).
    { symmetry. apply (Z.div_unique_pos _ _ _ (Zpos Pr - Zpos mc * 2 ^ n));
        nia. }
    split; [exact Hd|].
    rewrite Z.mod_eq, Hd by lia. nia. }
  destruct Hq as [Hq Hr].
  unfold rne. rewrite Hq.
  destruct (Z.ltb_spec (2 * (Zpos Pr mod 2 ^ n)) (2 ^ n)); [|lia].
  destruct (Z.ltb_spec (Zpos mc) (2 ^ 53)); [|lia].
  unfold pack. destruct (Z.leb_spec ec 971); [reflexivity|lia].
Qed.

End IntegerArithmetic.

(** ** Rarity calculation: edge inputs and composition *)

Module RarityEdges.
Import JsNumber Binary64 Rarity RarityIntegers NumberOrder Rounding.
Import IntegerArithmetic RarityFacts.
Local Open Scope string_scope.
Local Open Scope js_scope.

Lemma add_NaN_r (x : number) : x + NaN = NaN.
Proof. now destruct x. Qed.

Lemma add_NaN_l (y : number) : NaN + y = NaN.
Proof. reflexivity. Qed.

Lemma mul_NaN_l (y : number) : NaN * y = NaN.
Proof. reflexivity. Qed.

(** X1: a metric that is NaN makes the power level NaN, which reaches no
    threshold: the result is common whatever the other metrics are. *)
Theorem calculateRarity_NaN (a b c d : number) :
  calculateRarity NaN a b c d = "common" /\
  calculateRarity a NaN b c d = "common" /\
  calculateRarity a b NaN c d = "common" /\
  calculateRarity a b c NaN d = "common" /\
  calculateRarity a b c d NaN = "common".
Proof.
  unfold calculateRarity, powerLevel.
  repeat split;
    rewrite ?mul_NaN_l, ?add_NaN_l, ?add_NaN_r, ?add_NaN_l, ?add_NaN_r,
            ?add_NaN_l;
    reflexivity.
Qed.






(** The rank of the tier is the number of thresholds reached. *)
Lemma tierRank_reached (p : number) :
  tierRank (rarityOf p) = Some (reached p).
Proof.
  destruct (threshold_chain p) as (C1 & C2 & C3 & C4).
  unfold rarityOf, reached, thresholds. cbn [filter fst].
  destruct (p >= #5000) eqn:E5; destruct (p >= #2000) eqn:E4;
    destruct (p >= #800) eqn:E3; destruct (p >= #300) eqn:E2;
    destruct (p >= #100) eqn:E1;
    try discriminate (C1 eq_refl); try discriminate (C2 eq_refl);
    try discriminate (C3 eq_refl); try discriminate (C4 eq_refl);
    reflexivity.
Qed.

Lemma filter_length_le {A : Type} (f g : A -> bool) (l : list A) :
  (forall x, f x = true -> g x = true) ->
  (List.length (filter f l) <= List.length (filter g l))%nat.
Proof.
  intro Hfg. induction l as [|x l IH]; simpl; [lia|].
  destruct (f x) eqn:Ef.
  - rewrite (Hfg x Ef). simpl. lia.
  - destruct (g x); simpl; lia.
Qed.

Lemma reached_mono (p1 p2 : number) :
  (p1 <= p2) = true -> (reached p1 <= reached p2)%nat.
Proof.
  intro Hle. unfold reached. apply filter_length_le.
  intros row. apply geb_mono. exact Hle.
Qed.

(** X2: on metrics that are not below zero, raising any of the metrics
    never lowers the tier. *)
Theorem calculateRarity_monotone (f f' r r' c c' s s' k k' : number) :
  metric f = true -> metric f' = true -> (f <= f') = true ->
  metric r = true -> metric r' = true -> (r <= r') = true ->
  metric c = true -> metric c' = true -> (c <= c') = true ->
  metric s = true -> metric s' = true -> (s <= s') = true ->
  metric k = true -> metric k' = true -> (k <= k') = true ->
  tier_le (calculateRarity f r c s k) (calculateRarity f' r' c' s' k').
Proof.
  intros.
  assert (Hp : (powerLevel f r c s k <= powerLevel f' r' c' s' k') = true)
    by (apply powerLevel_mono; assumption).
  unfold tier_le, calculateRarity. rewrite !tierRank_reached.
  now apply reached_mono.
Qed.

Lemma calculateRarity_monotone_witness :
  tier_le (calculateRarity #40 #5 lit_999_5 #0 #2)
          (calculateRarity #45 #5 #1000 #60 #2).
Proof.
  apply calculateRarity_monotone; reflexivity.
Defined.

(** On an integer below [2 ^ 53] the threshold tests are the integer ones. *)
Lemma rarityOf_int (score : Z) :
  (0 <= score < 2 ^ 53)%Z -> rarityOf #score = rarityOfZ score.
Proof.
  intro Hs. unfold rarityOf, rarityOfZ, geb.
  rewrite !int_le by lia. reflexivity.
Qed.

(** X4: on natural metrics, the contributions being a multiple of ten, no
    rounding is left in the power level: it is the integer
    [2 * followers + repos + contributions / 10 + 3 * stars + 2 * forks], as
    long as that and the contributions stay below [2 ^ 53], and the tier is
    the one the integer thresholds give. *)
Theorem calculateRarity_integers (followers repos tens stars forks : Z) :
  (0 <= followers)%Z -> (0 <= repos)%Z -> (0 <= tens)%Z ->
  (0 <= stars)%Z -> (0 <= forks)%Z ->
  (10 * tens < 2 ^ 53)%Z ->
  (scoreZ followers repos tens stars forks < 2 ^ 53)%Z ->
  powerLevel #followers #repos #(10 * tens) #stars #forks
  = #(scoreZ followers repos tens stars forks) /\
  calculateRarity #followers #repos #(10 * tens) #stars #forks
  = rarityOfZ (scoreZ followers repos tens stars forks).
Proof.
  intros Hf Hr Ht Hs Hk Hc Hsum. unfold scoreZ in *.
  assert (E : powerLevel #followers #repos #(10 * tens) #stars #forks
              = #(followers * 2 + repos * 1 + tens + stars * 3 + forks * 2)).
  { unfold powerLevel.
    rewrite (mul_tenth tens) by lia.
    rewrite !int_mul by lia.
    rewrite !int_add by lia.
    reflexivity. }
  split; [exact E|].
  unfold calculateRarity. rewrite E. apply rarityOf_int. lia.
Qed.

Lemma calculateRarity_integers_witness :
  powerLevel #200 #100 #(10 * 100) #50 #50 = #850 /\
  calculateRarity #200 #100 #(10 * 100) #50 #50 = "epic".
Proof.
  apply (calculateRarity_integers 200 100 100 50 50); reflexivity || lia.
Defined.

End RarityEdges.

(** ** Username cleaning: fixed points and empty results *)

Module UsernameEdges.
Import Username UsernameFacts.
Local Open Scope list_scope.

Lemma trimStart_id (s : jsstring) :
  noLeadingSpace s = true -> trimStart s = s.
Proof.
  destruct s as [|c s]; [reflexivity|]. simpl.
  now destruct (isWhiteSpace c).
Qed.

Lemma trimEnd_id (s : jsstring) :
  noLeadingSpace (rev s) = true -> trimEnd s = s.
Proof.
  intro H. unfold trimEnd. rewrite (trimStart_id _ H). apply rev_involutive.
Qed.

Lemma trim_clean (s : jsstring) :
  noLeadingSpace (trim s) = true /\ noLeadingSpace (rev (trim s)) = true.
Proof.
  unfold trim. split.
  - apply trimEnd_keeps_start, trimStart_noLeadingSpace.
  - apply trimEnd_noTrailingSpace.
Qed.

Lemma trim_length (s : jsstring) :
  (List.length (trim s) <= List.length s)%nat.
Proof.
  destruct (trim_split s) as (l & r & Hs & _).
  rewrite Hs at 2. rewrite !length_app. lia.
Qed.

Lemma trim_nil_iff (s : jsstring) :
  trim s = [] <-> forallb isWhiteSpace s = true.
Proof.
  split.
  - intro H. destruct (trim_split s) as (l & r & Hs & Hl & Hr).
    rewrite H in Hs. rewrite Hs. simpl.
    now rewrite forallb_app, Hl, Hr.
  - intro H. unfold trim.
    assert (E : trimStart s = []).
    { induction s as [|c s IH]; [reflexivity|].
      simpl in *. apply andb_prop in H. destruct H as [Hc Hs].
      rewrite Hc. now apply IH. }
    rewrite E. reflexivity.
Qed.

Lemma getCleanUsername_defn :
  (forall s,
      getCleanUsername s = trim (if startsWithAt s then tl s else s)) /\
  (forall s,
      (List.length (getCleanUsername s) <= List.length s)%nat).
Proof.
  assert (Hdef : forall s,
             getCleanUsername s = trim (if startsWithAt s then tl s else s)).
  { intros [|c s]; [reflexivity|].
    unfold getCleanUsername, replace_leading_at, startsWithAt.
    simpl tl. now destruct (c =? at_sign)%N. }
  split; [exact Hdef|].
  intro s. rewrite Hdef.
  pose proof (trim_length (if startsWithAt s then tl s else s)) as L.
  destruct (startsWithAt s); [|exact L].
  destruct s as [|c s]; simpl in *; lia.
Qed.

(** X5: cleaning never lengthens a name, and the names it leaves as they
    are are exactly those that do not begin with ['@'] and neither begin nor
    end with white space. *)
Theorem getCleanUsername_fixed :
  (forall s,
      (List.length (getCleanUsername s) <= List.length s)%nat) /\
  (forall s,
      getCleanUsername s = s <->
      startsWithAt s = false /\
      noLeadingSpace s = true /\ noLeadingSpace (rev s) = true).
Proof.
  destruct getCleanUsername_defn as [Hdef Hlen].
  split; [exact Hlen|].
  intro s. split.
  - intro Hfix.
    destruct (startsWithAt s) eqn:Hat.
    + exfalso. destruct s as [|c s]; [discriminate|].
      pose proof (Hdef (c :: s)) as E. rewrite Hat in E. simpl tl in E.
      pose proof (trim_length s) as L.
      rewrite <- E, Hfix in L. simpl in L. lia.
    + pose proof (Hdef s) as E. rewrite Hat, Hfix in E.
      destruct (trim_clean s) as [A B]. rewrite <- E in A, B. auto.
  - intros (Hat & Hl & Hr).
    rewrite (Hdef s), Hat. unfold trim.
    rewrite (trimStart_id s Hl). now apply trimEnd_id.
Qed.

(** X6: cleaning twice is cleaning once exactly when the cleaned name does
    not itself begin with ['@']; a second ['@'] survives the first pass and
    falls to the second. *)
Theorem getCleanUsername_twice (s : jsstring) :
  getCleanUsername (getCleanUsername s) = getCleanUsername s <->
  startsWithAt (getCleanUsername s) = false.
Proof.
  destruct getCleanUsername_defn as [Hdef Hlen].
  pose proof (Hdef s) as E.
  destruct (trim_clean (if startsWithAt s then tl s else s)) as [A B].
  rewrite <- E in A, B.
  set (u := getCleanUsername s) in *.
  split.
  - intro Hfix. destruct (startsWithAt u) eqn:Hat; [exfalso|reflexivity].
    destruct u as [|c t]; [discriminate|].
    pose proof (Hdef (c :: t)) as E2. rewrite Hat in E2. simpl tl in E2.
    pose proof (trim_length t) as L.
    rewrite <- E2, Hfix in L. simpl in L. lia.
  - intro Hat. rewrite (Hdef u), Hat. unfold trim.
    rewrite (trimStart_id u A). now apply trimEnd_id.
Qed.

(** X7: the cleaned name is empty exactly when nothing but white space is
    left once the leading ['@'], if there is one, is taken away. *)
Theorem getCleanUsername_empty (s : jsstring) :
  getCleanUsername s = [] <->
  forallb isWhiteSpace (if startsWithAt s then tl s else s) = true.
Proof.
  destruct getCleanUsername_defn as [Hdef _].
  rewrite Hdef. apply trim_nil_iff.
Qed.

End UsernameEdges.

(** ** Contribution totals and repository statistics: composition *)

Module TotalsEdges.
Import Contributions Stats ContributionsFacts StatsFacts.
Local Open Scope Z_scope.







End TotalsEdges.

(** ** Language statistics: what the ranking selects *)

Module LanguagesEdges.
Import Languages LanguagesFacts.
Local Open Scope Z_scope.

Lemma sorted_app_dominates (l1 l2 : entries) :
  StronglySorted count_ge (l1 ++ l2) ->
  Forall (fun x => Forall (fun y => snd y <= snd x) l2) l1.
Proof.
  induction l1 as [|x l1 IH]; simpl; intro H; [constructor|].
  inversion H as [|? ? Hs Hx]; subst.
  constructor; [|now apply IH].
  apply Forall_app in Hx. destruct Hx as [_ Hx].
  eapply Forall_impl; [|exact Hx]. unfold count_ge. intros; simpl in *; lia.
Qed.

(** X10: the ranking splits the sorted entries into the names it returns,
    three at most, and the entries it leaves out; nothing is left out
    unless three names are returned, every name returned is a name of the
    mapping, and no entry left out has a higher count than one returned. *)
Theorem topLanguages_selection (languageCount : entries) :
  exists top rest,
    Permutation (top ++ rest) languageCount /\
    topLanguages languageCount = map fst top /\
    (List.length top <= 3)%nat /\
    (rest = [] \/ List.length top = 3%nat) /\
    Forall (fun x => Forall (fun y => snd y <= snd x) rest) top /\
    (forall name, In name (topLanguages languageCount) ->
                  In name (map fst languageCount)).
Proof.
  set (sorted := sort compareFn languageCount).
  exists (firstn 3 sorted), (skipn 3 sorted).
  assert (Hp : Permutation (firstn 3 sorted ++ skipn 3 sorted) languageCount).
  { rewrite firstn_skipn. apply sort_perm. }
  split; [exact Hp|].
  split; [reflexivity|].
  split; [apply firstn_le_length|].
  split.
  { destruct sorted as [|a [|b [|c rest]]]; simpl; auto. }
  split.
  { apply sorted_app_dominates. rewrite firstn_skipn. apply sort_sorted. }
  intros name Hin. unfold topLanguages, slice_0_3 in Hin. fold sorted in Hin.
  apply in_map_iff in Hin. destruct Hin as (x & <- & Hx).
  apply in_map.
  eapply Permutation_in; [exact Hp|]. apply in_or_app. now left.
Qed.

(** X11: a mapping names each language once, and so does the ranking. *)
Theorem topLanguages_NoDup (languageCount : entries) :
  NoDup (map fst languageCount) -> NoDup (topLanguages languageCount).
Proof.
  intro Hnd. unfold topLanguages, slice_0_3.
  set (sorted := sort compareFn languageCount).
  assert (Hs : NoDup (map fst sorted)).
  { eapply Permutation_NoDup; [|exact Hnd].
    apply Permutation_map. symmetry. apply sort_perm. }
  rewrite <- (firstn_skipn 3 sorted), map_app in Hs.
  eapply NoDup_app_remove_r. exact Hs.
Qed.

Lemma topLanguages_NoDup_witness :
  NoDup (topLanguages [("JavaScript", 10); ("Python", 20);
                       ("TypeScript", 15); ("Go", 5); ("Rust", 12)]%string).
Proof.
  apply topLanguages_NoDup.
  repeat constructor; simpl; intuition discriminate.
Defined.

Lemma same_count_same_entry (l : entries) (a b : string * Z) :
  NoDup (map snd l) -> In a l -> In b l -> snd a = snd b -> a = b.
Proof.
  induction l as [|x l IH]; simpl; intros Hnd Ha Hb Hab; [contradiction|].
  inversion Hnd as [|? ? Hx Hl]; subst.
  destruct Ha as [->|Ha], Hb as [->|Hb]; auto.
  - exfalso. apply Hx. rewrite Hab. now apply in_map.
  - exfalso. apply Hx. rewrite <- Hab. now apply in_map.
Qed.

(** Entries of pairwise distinct counts have one descending arrangement. *)
Lemma sorted_unique (l1 l2 : entries) :
  StronglySorted count_ge l1 -> StronglySorted count_ge l2 ->
  Permutation l1 l2 -> NoDup (map snd l1) -> l1 = l2.
Proof.
  revert l2. induction l1 as [|a l1 IH]; intros l2 S1 S2 Hp Hnd.
  - apply Permutation_nil in Hp. now subst.
  - destruct l2 as [|b l2].
    + symmetry in Hp. apply Permutation_nil in Hp. discriminate.
    + inversion S1 as [|? ? S1' H1]; subst.
      inversion S2 as [|? ? S2' H2]; subst.
      assert (Hab : a = b).
      { assert (Ia : In a (b :: l2))
          by (eapply Permutation_in; [exact Hp|now left]).
        assert (Ib : In b (a :: l1))
          by (eapply Permutation_in; [symmetry; exact Hp|now left]).
        destruct Ia as [Ia|Ia]; [now symmetry|].
        destruct Ib as [Ib|Ib]; [exact Ib|].
        rewrite Forall_forall in H1, H2.
        pose proof (H1 b Ib) as G1. pose proof (H2 a Ia) as G2.
        unfold count_ge in *.
        apply (same_count_same_entry (a :: l1)); auto; simpl; auto. lia. }
      subst b. f_equal.
      apply IH; try assumption.
      * now apply Permutation_cons_inv in Hp.
      * now inversion Hnd.
Qed.

(** X12: when the counts of a mapping are pairwise distinct there are no
    ties to break, and the ranking does not depend on the order in which
    the languages were inserted. *)
Theorem topLanguages_order_independent (l1 l2 : entries) :
  Permutation l1 l2 -> NoDup (map snd l1) ->
  topLanguages l1 = topLanguages l2.
Proof.
  intros Hp Hnd. unfold topLanguages.
  rewrite (sorted_unique (sort compareFn l1) (sort compareFn l2)).
  - reflexivity.
  - apply sort_sorted.
  - apply sort_sorted.
  - rewrite (sort_perm l1), Hp. symmetry. apply sort_perm.
  - eapply Permutation_NoDup; [|exact Hnd].
    apply Permutation_map. symmetry. apply sort_perm.
Qed.

Lemma topLanguages_order_independent_witness :
  topLanguages [("JavaScript", 15); ("Python", 8);
                ("TypeScript", 20); ("Go", 5)]%string
  = topLanguages [("Go", 5); ("TypeScript", 20);
                  ("Python", 8); ("JavaScript", 15)]%string.
Proof.
  apply topLanguages_order_independent.
  - apply Permutation_sym.
    apply (Permutation_cons_app [_; _; _] []).
    apply (Permutation_cons_app [_; _] []).
    apply (Permutation_cons_app [_] []).
    reflexivity.
  - repeat constructor; simpl; intuition discriminate.
Defined.

End LanguagesEdges.

(** ** Agreement of the integer reductions with the numbers of the language *)

Module AgreementWitnesses.
Import Contributions Stats Languages.
Import ContributionsFacts StatsFacts LanguagesFacts.
Local Open Scope Z_scope.

Lemma total_number_exact_witness :
  total_number
    (asNumbers [ {| contributionDays := [day 5; day 3] |};
                 {| contributionDays := [day 2; day 4] |} ])
  = JsNumber.int
      (total [ {| contributionDays := [day 5; day 3] |};
               {| contributionDays := [day 2; day 4] |} ]).
Proof.
  apply total_number_exact.
  - simpl. repeat constructor; lia.
  - reflexivity.
Defined.

Lemma sumField_number_exact_witness :
  sumField_number
    (map (fun repo => option_map JsNumber.int (stargazers_count repo))
         [starred 100; bare; starred 50])
  = JsNumber.int (sumField stargazers_count [starred 100; bare; starred 50]).
Proof.
  apply sumField_number_exact.
  - simpl. repeat constructor; lia.
  - reflexivity.
Defined.

Lemma topLanguages_number_exact_witness :
  topLanguages_number
    (map asNumber [("JavaScript", 10); ("Python", 10);
                   ("TypeScript", 5)]%string)
  = topLanguages [("JavaScript", 10); ("Python", 10);
                  ("TypeScript", 5)]%string.
Proof.
  apply topLanguages_number_exact.
  repeat constructor; simpl; lia.
Defined.

End AgreementWitnesses.

(** ** The rarity table under the patterns of its tests *)

Module RarityTable.
Import JsNumber Rarity Patterns RarityFacts.
Local Open Scope string_scope.

(** X16: whatever the metrics, the entry of [RARITY_LEVELS] for the result
    of [calculateRarity] carries a colour that is a six-digit hexadecimal
    code and a gradient of the form [from-<name>-<ddd> to-<name>-<ddd>]. *)
Theorem calculateRarity_level_wellformed (f r c s k : number) :
  exists level,
    lookup (calculateRarity f r c s k) RARITY_LEVELS = Some level /\
    isHexColor (color level) = true /\
    isGradient (gradient level) = true.
Proof.
  pose proof (rarityOf_tiers (powerLevel f r c s k)) as Hin.
  rewrite <- calculateRarity_unfold in Hin. simpl in Hin.
  destruct Hin as [H|[H|[H|[H|[H|[H|[]]]]]]]; rewrite <- H;
    eexists; (split; [reflexivity|]); split; reflexivity.
Qed.

End RarityTable.
